(** * finchan.exts.scheduler: a shallow embedding and its properties

    The scheduler extension of finchan keeps a list of jobs, computes for
    each one the instant of its next run, and has two drivers that turn due
    jobs into events: [LiveScheduler] (wall clock) and [BackTrackScheduler]
    (bounded replay).  This file embeds [JobMananger], [Job] and the two
    drivers of [src/finchan/exts/scheduler.py] together with the part of
    Python's [datetime], [random] and of [dateutil.relativedelta] that they
    call, and states the properties of the specification over them. *)

From Stdlib Require Import ZArith List Bool Lia String QArith Permutation.
From stdpp Require Import gmap strings.
Import ListNotations.

Local Open Scope Z_scope.

(** ** Exceptions and results *)

(** The Python exceptions that the embedded code can raise. *)
Inductive exn : Type :=
| AssertionError
| AttributeError
| OverflowError
| TypeError
| ValueError.

(** A computation without side effect either yields a value or raises. *)
Inductive result (A : Type) : Type :=
| Ok (a : A)
| Err (e : exn).
Arguments Ok {A} a.
Arguments Err {A} e.

Definition rbind {A B : Type} (r : result A) (k : A -> result B) : result B :=
  match r with
  | Ok a => k a
  | Err e => Err e
  end.

(** A method call on a mutable object: the state [S] it leaves behind is
    part of the outcome also when it raises, since a Python exception does
    not roll back the assignments made before it.  [OutOfFuel] is a loop
    cut by the fuel of the embedding, with the state reached by then. *)
Inductive outcome (S A : Type) : Type :=
| Returned (a : A) (s : S)
| Raised (e : exn) (s : S)
| OutOfFuel (s : S).
Arguments Returned {S A} a s.
Arguments Raised {S A} e s.
Arguments OutOfFuel {S A} s.

(** The state in which a call ends, however it ends. *)
Definition final {S A : Type} (r : outcome S A) : S :=
  match r with
  | Returned _ s => s
  | Raised _ s => s
  | OutOfFuel s => s
  end.

(** ** [datetime.datetime] (naive) *)

Module DT.

Record datetime : Type := mkdt {
  year : Z;
  month : Z;
  day : Z;
  hour : Z;
  minute : Z;
  second : Z;
  microsecond : Z
}.

Definition MINYEAR : Z := 1.
Definition MAXYEAR : Z := 9999.

Definition is_leap (y : Z) : bool :=
  (y mod 4 =? 0) && (negb (y mod 100 =? 0) || (y mod 400 =? 0)).

(** [_DAYS_IN_MONTH], index 0 is a placeholder as in CPython. *)
Definition DAYS_IN_MONTH : list Z :=
  [-1; 31; 28; 31; 30; 31; 30; 31; 31; 30; 31; 30; 31].

(** [_DAYS_BEFORE_MONTH], the running sum of the table above. *)
Definition DAYS_BEFORE_MONTH : list Z :=
  [-1; 0; 31; 59; 90; 120; 151; 181; 212; 243; 273; 304; 334].

Definition days_in_month (y m : Z) : Z :=
  if (m =? 2) && is_leap y then 29 else nth (Z.to_nat m) DAYS_IN_MONTH 0.

Definition days_before_year (y : Z) : Z :=
  let y := y - 1 in y * 365 + y / 4 - y / 100 + y / 400.

Definition days_before_month (y m : Z) : Z :=
  nth (Z.to_nat m) DAYS_BEFORE_MONTH 0
  + (if (2 <? m) && is_leap y then 1 else 0).

(** [_ymd2ord]: 0001-01-01 is day 1. *)
Definition ymd2ord (y m d : Z) : Z :=
  days_before_year y + days_before_month y m + d.

Definition DI400Y : Z := 146097.
Definition DI100Y : Z := 36524.
Definition DI4Y : Z := 1461.

(** [_ord2ymd], the inverse of [ymd2ord]. *)
Definition ord2ymd (n : Z) : Z * Z * Z :=
  let n := n - 1 in
  let n400 := n / DI400Y in
  let n := n mod DI400Y in
  let y := n400 * 400 + 1 in
  let n100 := n / DI100Y in
  let n := n mod DI100Y in
  let n4 := n / DI4Y in
  let n := n mod DI4Y in
  let n1 := n / 365 in
  let n := n mod 365 in
  let y := y + n100 * 100 + n4 * 4 + n1 in
  if (n1 =? 4) || (n100 =? 4) then (y - 1, 12, 31)
  else
    let leapyear := (n1 =? 3) && (negb (n4 =? 24) || (n100 =? 3)) in
    let m := Z.shiftr (n + 50) 5 in
    let preceding :=
      nth (Z.to_nat m) DAYS_BEFORE_MONTH 0
      + (if (2 <? m) && leapyear then 1 else 0) in
    if n <? preceding then
      let m := m - 1 in
      let preceding :=
        preceding
        - (nth (Z.to_nat m) DAYS_IN_MONTH 0
           + (if (m =? 2) && leapyear then 1 else 0)) in
      (y, m, n - preceding + 1)
    else (y, m, n - preceding + 1).

Definition in_range (lo x hi : Z) : bool := (lo <=? x) && (x <=? hi).

(** The check made by the [datetime] constructor, which [replace] runs on
    the fields of the new value. *)
Definition valid (d : datetime) : bool :=
  in_range MINYEAR (year d) MAXYEAR
  && in_range 1 (month d) 12
  && in_range 1 (day d) (days_in_month (year d) (month d))
  && in_range 0 (hour d) 23
  && in_range 0 (minute d) 59
  && in_range 0 (second d) 59
  && in_range 0 (microsecond d) 999999.

(** *** Ordering: naive datetimes compare field by field. *)

Definition fields (d : datetime) : list Z :=
  [year d; month d; day d; hour d; minute d; second d; microsecond d].

Fixpoint lex_compare (a b : list Z) : comparison :=
  match a, b with
  | [], [] => Eq
  | [], _ :: _ => Lt
  | _ :: _, [] => Gt
  | x :: a', y :: b' =>
      match x ?= y with
      | Eq => lex_compare a' b'
      | c => c
      end
  end.

Definition compare (a b : datetime) : comparison :=
  lex_compare (fields a) (fields b).

Definition lt (a b : datetime) : bool :=
  match compare a b with Lt => true | _ => false end.
Definition gt (a b : datetime) : bool :=
  match compare a b with Gt => true | _ => false end.
Definition le (a b : datetime) : bool :=
  match compare a b with Gt => false | _ => true end.

(** *** [replace] *)

Inductive field : Type := Fyear | Fmonth | Fday | Fhour | Fminute | Fsecond.

Definition set_field (d : datetime) (kv : field * Z) : datetime :=
  let '(k, v) := kv in
  match k with
  | Fyear => mkdt v (month d) (day d) (hour d) (minute d) (second d) (microsecond d)
  | Fmonth => mkdt (year d) v (day d) (hour d) (minute d) (second d) (microsecond d)
  | Fday => mkdt (year d) (month d) v (hour d) (minute d) (second d) (microsecond d)
  | Fhour => mkdt (year d) (month d) (day d) v (minute d) (second d) (microsecond d)
  | Fminute => mkdt (year d) (month d) (day d) (hour d) v (second d) (microsecond d)
  | Fsecond => mkdt (year d) (month d) (day d) (hour d) (minute d) v (microsecond d)
  end.

(** [d.replace] with keyword arguments: the keyword dictionary is the list
    of its items in insertion order; the new value is validated as a whole and
    [ValueError] is raised when a field is out of range. *)
Definition replace (d : datetime) (kw : list (field * Z)) : result datetime :=
  let d' := fold_left set_field kw d in
  if valid d' then Ok d' else Err ValueError.

(** *** Arithmetic with [datetime.timedelta], in microseconds *)

Definition US_PER_SECOND : Z := 1000000.
Definition US_PER_DAY : Z := 86400 * US_PER_SECOND.

(** Microseconds since the start of day 0 of the proleptic calendar. *)
Definition to_us (d : datetime) : Z :=
  ymd2ord (year d) (month d) (day d) * US_PER_DAY
  + ((hour d * 60 + minute d) * 60 + second d) * US_PER_SECOND
  + microsecond d.

Definition MAXORDINAL : Z := 3652059.

Definition of_us (us : Z) : result datetime :=
  let days := us / US_PER_DAY in
  let rest := us mod US_PER_DAY in
  if in_range 1 days MAXORDINAL then
    let '(y, m, d) := ord2ymd days in
    let secs := rest / US_PER_SECOND in
    Ok (mkdt y m d (secs / 3600) (secs / 60 mod 60) (secs mod 60)
             (rest mod US_PER_SECOND))
  else Err OverflowError.

(** [d + timedelta(microseconds=us)]; out of the supported years it is
    [OverflowError]. *)
Definition add_us (d : datetime) (us : Z) : result datetime :=
  of_us (to_us d + us).

(** [a - b] as a [timedelta], kept as its number of microseconds. *)
Definition sub (a b : datetime) : Z := to_us a - to_us b.

(** A Python [float], given by a rational number that it is the nearest
    double to. *)
Inductive pyfloat : Type :=
| nearest_double (q : Q).

(** [timedelta.total_seconds()]: the true division of the microseconds by
    [10**6], which is correctly rounded. *)
Definition total_seconds (td : Z) : pyfloat :=
  nearest_double (Qmake td 1000000).

(** [f <= 0.0].  Rounding is monotone, and the rationals that round to
    zero are those of magnitude at most [2**-1075], half the least
    positive double (a tie goes to the even neighbour, zero). *)
Definition nonpositive (f : pyfloat) : Prop :=
  match f with
  | nearest_double q => (q <= Qmake 1 (2 ^ 1075))%Q
  end.

End DT.

Export DT(datetime, mkdt).

(** ** [dateutil.relativedelta] (imported by the scheduler as [timedelta]) *)

Module RD.

(** The relative part of a [relativedelta]; the scheduler never sets the
    absolute fields, the weekday or the microseconds. *)
Record relativedelta : Type := mkrd {
  years : Z;
  months : Z;
  days : Z;
  hours : Z;
  minutes : Z;
  seconds : Z
}.

(** The keyword arguments that the scheduler passes. *)
Inductive key : Type :=
| Kyears | Kmonths | Kweeks | Kdays | Khours | Kminutes | Kseconds.

(** [_sign]: [int(copysign(1, x))]. *)
Definition sign (x : Z) : Z := if x <? 0 then -1 else 1.

(** One carry of [_fix]: when [abs lo] exceeds [bound], move the whole
    multiples of [base] into the next field [hi]. *)
Definition carry (bound base lo hi : Z) : Z * Z :=
  if bound <? Z.abs lo then
    let s := sign lo in
    let d := (lo * s) / base in
    let m := (lo * s) mod base in
    (m * s, hi + d * s)
  else (lo, hi).

(** [relativedelta._fix]. *)
Definition fix_ (r : relativedelta) : relativedelta :=
  let '(s, mi) := carry 59 60 (seconds r) (minutes r) in
  let '(mi, h) := carry 59 60 mi (hours r) in
  let '(h, d) := carry 23 24 h (days r) in
  let '(mo, y) := carry 11 12 (months r) (years r) in
  mkrd y mo d h mi s.

(** [relativedelta(k = v)]: every other argument has its default 0, weeks
    are folded into days, and the value is normalised by [_fix]. *)
Definition make (k : key) (v : Z) : relativedelta :=
  fix_ match k with
       | Kyears => mkrd v 0 0 0 0 0
       | Kmonths => mkrd 0 v 0 0 0 0
       | Kweeks => mkrd 0 0 (v * 7) 0 0 0
       | Kdays => mkrd 0 0 v 0 0 0
       | Khours => mkrd 0 0 0 v 0 0
       | Kminutes => mkrd 0 0 0 0 v 0
       | Kseconds => mkrd 0 0 0 0 0 v
       end.

(** [relativedelta.__radd__]: years and months move the calendar fields,
    the day is clipped to the length of the target month, and the rest is
    added as a [datetime.timedelta]. *)
Definition add (d : datetime) (r : relativedelta) : result datetime :=
  let y := DT.year d + years r in
  let m := DT.month d in
  let '(y, m) :=
    if months r =? 0 then (y, m)
    else
      let m := m + months r in
      if 12 <? m then (y + 1, m - 12)
      else if m <? 1 then (y - 1, m + 12)
      else (y, m) in
  let dd := Z.min (DT.days_in_month y m) (DT.day d) in
  rbind (DT.replace d [(DT.Fyear, y); (DT.Fmonth, m); (DT.Fday, dd)])
    (fun d' =>
       DT.add_us d'
         (days r * DT.US_PER_DAY
          + ((hours r * 60 + minutes r) * 60 + seconds r) * DT.US_PER_SECOND)).

End RD.

(** ** [random.randint] *)

(** The generator is a tape of raw draws; [randint a b] consumes one draw
    and maps it into [a..b], so that every value of the range is the result
    for some tape.  An exhausted tape keeps yielding 0. *)
Definition rng : Type := list Z.

Definition randint (a b : Z) (g : rng) : result Z * rng :=
  if b <? a then (Err ValueError, g)
  else
    match g with
    | [] => (Ok a, [])
    | r :: g' => (Ok (a + r mod (b - a + 1)), g')
    end.

(** ** Jobs *)

(** [Job.unit_types]; a job that has not been given a unit has [None]. *)
Inductive Unit : Type :=
| Once | Seconds | Minutes | Hours | Days | Weeks | Months | Years.

#[global] Instance Unit_eq_dec : EqDecision Unit.
Proof. solve_decision. Defined.

Definition unit_types : list Unit :=
  [Once; Seconds; Minutes; Hours; Days; Weeks; Months; Years].

(** A unit used as the keyword of a [relativedelta]; ["once"] is not one of
    its keywords. *)
Definition unit_key (u : Unit) : option RD.key :=
  match u with
  | Once => None
  | Seconds => Some RD.Kseconds
  | Minutes => Some RD.Kminutes
  | Hours => Some RD.Khours
  | Days => Some RD.Kdays
  | Weeks => Some RD.Kweeks
  | Months => Some RD.Kmonths
  | Years => Some RD.Kyears
  end.

(** What [do] stores in [event_kwargs]: the function and its arguments, all
    opaque to the scheduler. *)
Record binding : Type := mkBinding {
  func : string;
  args : list string;
  kwargs : list (string * string)
}.

(** A [Job] object.  [oid] is the identity of the Python object: the class
    defines no [__eq__], so [list.remove] finds a job by identity.
    [event_kwargs] is [None] while the dictionary is still empty.  The steps
    are integers, so that [max_step] is never Python's [None]. *)
Record Job : Type := mkJob {
  oid : nat;
  job_id : string;
  unit : option Unit;
  next_run : option datetime;
  min_step : Z;
  max_step : Z;
  last_run : option datetime;
  event_kwargs : option binding;
  tags : gset string;
  offset_dt : datetime
}.

Definition event_name (j : Job) : string := ("Scheduler." ++ job_id j)%string.

Definition set_unit (u : option Unit) (j : Job) : Job :=
  mkJob (oid j) (job_id j) u (next_run j) (min_step j) (max_step j)
        (last_run j) (event_kwargs j) (tags j) (offset_dt j).
Definition set_next_run (t : option datetime) (j : Job) : Job :=
  mkJob (oid j) (job_id j) (unit j) t (min_step j) (max_step j)
        (last_run j) (event_kwargs j) (tags j) (offset_dt j).
Definition set_max_step (n : Z) (j : Job) : Job :=
  mkJob (oid j) (job_id j) (unit j) (next_run j) (min_step j) n
        (last_run j) (event_kwargs j) (tags j) (offset_dt j).
Definition set_last_run (t : option datetime) (j : Job) : Job :=
  mkJob (oid j) (job_id j) (unit j) (next_run j) (min_step j) (max_step j)
        t (event_kwargs j) (tags j) (offset_dt j).
Definition set_event_kwargs (b : option binding) (j : Job) : Job :=
  mkJob (oid j) (job_id j) (unit j) (next_run j) (min_step j) (max_step j)
        (last_run j) b (tags j) (offset_dt j).
Definition set_tags (s : gset string) (j : Job) : Job :=
  mkJob (oid j) (job_id j) (unit j) (next_run j) (min_step j) (max_step j)
        (last_run j) (event_kwargs j) s (offset_dt j).
Definition set_offset_dt (d : datetime) (j : Job) : Job :=
  mkJob (oid j) (job_id j) (unit j) (next_run j) (min_step j) (max_step j)
        (last_run j) (event_kwargs j) (tags j) d.

(** [parse_dt("1970-01-01 00:00:00")]. *)
Definition epoch : datetime := mkdt 1970 1 1 0 0 0 0.

(** [Job.__init__].  [o] is the identity given to the new object and [id]
    the [job_id] argument or, without one, the next value of the class's id
    generator. *)
Definition Job_init (o : nat) (id : string) (step : Z) (u : option Unit) : Job :=
  mkJob o id u None step step None None ∅ epoch.

(** [Job.to]: the assignment precedes the assertion. *)
Definition to (step : Z) (j : Job) : outcome Job Datatypes.unit :=
  let j := set_max_step step j in
  if min_step j <=? max_step j then Returned tt j
  else Raised AssertionError j.

Definition seconds (j : Job) : Job := set_unit (Some Seconds) j.
Definition minutes (j : Job) : Job := set_unit (Some Minutes) j.
Definition hours (j : Job) : Job := set_unit (Some Hours) j.
Definition days (j : Job) : Job := set_unit (Some Days) j.
Definition weeks (j : Job) : Job := set_unit (Some Weeks) j.
Definition months (j : Job) : Job := set_unit (Some Months) j.
Definition years (j : Job) : Job := set_unit (Some Years) j.

(** The values that a caller can pass as a tag, by what Python does with
    them: [Key t] hashes to the set member [t]; [NoHash] is a value whose
    type has no [__hash__] (a list, a dict), so it is not an instance of
    [collections.Hashable]; [BadHash] is an instance of it whose [hash]
    raises all the same (a tuple that holds a list). *)
Inductive tagarg : Type :=
| Key (t : string)
| NoHash
| BadHash.

Definition isinstance_Hashable (a : tagarg) : bool :=
  match a with
  | NoHash => false
  | _ => true
  end.

(** [set.update]: the members are added one at a time, and a [hash] that
    raises leaves those already added in the set. *)
Fixpoint set_update (s : gset string) (l : list tagarg) : result (gset string) * gset string :=
  match l with
  | [] => (Ok s, s)
  | Key t :: l' => set_update (s ∪ {[t]}) l'
  | _ :: _ => (Err TypeError, s)
  end.

(** [Job.tag]. *)
Definition tag (ts : list tagarg) (j : Job) : outcome Job Datatypes.unit :=
  if negb (forallb isinstance_Hashable ts) then Raised TypeError j
  else
    match set_update (tags j) ts with
    | (Ok _, s) => Returned tt (set_tags s j)
    | (Err e, s) => Raised e (set_tags s j)
    end.

Section Anchor.

(** [dateutil.parser.parse], which is not part of the scheduler: the
    anchor text either parses to a datetime or raises. *)
Variable parse_dt : string -> result datetime.

(** [Job.at]: an empty or missing text leaves the anchor as it was, and so
    does a text on which the parser raises [ValueError] or [TypeError],
    the two exceptions that the method catches; any other exception of the
    parser leaves the method. *)
Definition at_ (text : option string) (j : Job) : outcome Job Datatypes.unit :=
  match text with
  | None => Returned tt j
  | Some s =>
      if String.eqb s "" then Returned tt j
      else
        match parse_dt s with
        | Ok d => Returned tt (set_offset_dt d j)
        | Err ValueError => Returned tt j
        | Err TypeError => Returned tt j
        | Err e => Raised e j
        end
  end.

End Anchor.

(** The state of the calls that draw random steps: the job and the
    generator. *)
Definition JS : Type := Job * rng.

(** [Job._schedule_next_run]. *)
Definition _schedule_next_run (s : JS) : outcome JS Datatypes.unit :=
  let '(j, g) := s in
  match unit j with
  | Some Once => Returned tt (j, g)
  | u =>
      match randint (min_step j) (max_step j) g with
      | (Err e, g') => Raised e (j, g')
      | (Ok step, g') =>
          match u, last_run j with
          | Some u', Some t =>
              match unit_key u' with
              | Some k =>
                  match RD.add t (RD.make k step) with
                  | Ok t' => Returned tt (set_next_run (Some t') j, g')
                  | Err e => Raised e (j, g')
                  end
              | None => Raised TypeError (j, g')
              end
          | _, _ => Raised TypeError (j, g')
          end
      end
  end.

(** The keyword dictionary [replay_dict] of [_schedule_first_run], in
    insertion order. *)
Definition replay_dict (j : Job) (now : datetime) : list (DT.field * Z) :=
  let off := offset_dt j in
  (if DT.year off <? DT.year now then [(DT.Fyear, DT.year now)] else [])
  ++ match unit j with
     | Some Minutes => [(DT.Fsecond, DT.second off)]
     | Some Hours => [(DT.Fminute, DT.minute off); (DT.Fsecond, DT.second off)]
     | Some Days =>
         [(DT.Fhour, DT.hour off); (DT.Fminute, DT.minute off);
          (DT.Fsecond, DT.second off)]
     | Some Months =>
         [(DT.Fday, DT.day off); (DT.Fhour, DT.hour off);
          (DT.Fminute, DT.minute off); (DT.Fsecond, DT.second off)]
     | Some Years =>
         [(DT.Fmonth, DT.month off); (DT.Fday, DT.day off);
          (DT.Fhour, DT.hour off); (DT.Fminute, DT.minute off);
          (DT.Fsecond, DT.second off)]
     | _ => []
     end.

(** [bench_dt]: [env.now.replace] with the keywords of [replay_dict]. *)
Definition bench_dt (j : Job) (now : datetime) : result datetime :=
  DT.replace now (replay_dict j now).

(** The [timedelta] built from [offset_dict] in [_schedule_first_run]:
    weeks are given as days. *)
Definition offset_delta (u : option Unit) (step : Z) : result RD.relativedelta :=
  match u with
  | Some Weeks => Ok (RD.make RD.Kdays (step * 7))
  | Some u' =>
      match unit_key u' with
      | Some k => Ok (RD.make k step)
      | None => Err TypeError
      end
  | None => Err TypeError
  end.

(** The loop [while self.next_run < env.now] that ends
    [_schedule_first_run]. *)
Fixpoint catch_up (fuel : nat) (now : datetime) (s : JS) : outcome JS Datatypes.unit :=
  match fuel with
  | O => OutOfFuel s
  | S fuel' =>
      let '(j, g) := s in
      match next_run j with
      | None => Raised TypeError s
      | Some t =>
          if DT.lt t now then
            match _schedule_next_run (set_last_run (next_run j) j, g) with
            | Returned _ s' => catch_up fuel' now s'
            | r => r
            end
          else Returned tt s
      end
  end.

(** [Job._schedule_first_run], with [env.now] as [now]. *)
Definition _schedule_first_run (fuel : nat) (now : datetime) (s : JS)
  : outcome JS Datatypes.unit :=
  let '(j, g) := s in
  match unit j with
  | Some Once => Returned tt (set_next_run (Some (offset_dt j)) j, g)
  | u =>
      match randint (min_step j) (max_step j) g with
      | (Err e, g') => Raised e (j, g')
      | (Ok step, g') =>
          match
            rbind (bench_dt j now) (fun b =>
            rbind (offset_delta u step) (fun delta => RD.add b delta))
          with
          | Err e => Raised e (j, g')
          | Ok t => catch_up fuel now (set_next_run (Some t) j, g')
          end
      end
  end.

(** ** The environment and [JobMananger] *)

(** [finchan.event.Event] as [gen_event] builds it. *)
Record Event : Type := mkEvent {
  name : string;
  dt : option datetime;
  payload : option binding
}.

(** What the scheduler reads and writes outside the jobs themselves:
    [env.now], the manager's list [jobs] (the objects in registration
    order), the events handed to [env.dispatcher.put_event] (oldest first),
    the event names given to [env.dispatcher.subscribe], and the random
    generator. *)
Record World : Type := mkWorld {
  now : datetime;
  jobs : list Job;
  queue : list Event;
  subscribed : list string;
  rand : rng
}.

Definition set_now (t : datetime) (w : World) : World :=
  mkWorld t (jobs w) (queue w) (subscribed w) (rand w).
Definition set_jobs (l : list Job) (w : World) : World :=
  mkWorld (now w) l (queue w) (subscribed w) (rand w).
Definition set_rand (g : rng) (w : World) : World :=
  mkWorld (now w) (jobs w) (queue w) (subscribed w) g.
Definition put_event (e : Event) (w : World) : World :=
  mkWorld (now w) (jobs w) (queue w ++ [e]) (subscribed w) (rand w).
Definition subscribe (n : string) (w : World) : World :=
  mkWorld (now w) (jobs w) (queue w) (subscribed w ++ [n]) (rand w).

(** Two references denote the same job object. *)
Definition same (a b : Job) : bool := Nat.eqb (oid a) (oid b).

(** An assignment to an attribute of the object [j] is seen through every
    reference to it in the list. *)
Definition store (j : Job) (l : list Job) : list Job :=
  map (fun x => if same x j then j else x) l.

(** [JobMananger.every] and [JobMananger.at]. *)
Definition every (o : nat) (id : string) (step : Z) : Job :=
  Job_init o id step None.

Definition at_once (parse_dt : string -> result datetime)
  (o : nat) (id : string) (text : option string) : outcome Job Datatypes.unit :=
  at_ parse_dt text (Job_init o id 0 (Some Once)).

(** [JobMananger.add_job]. *)
Definition add_job (j : Job) (w : World) : World :=
  set_jobs (jobs w ++ [j]) w.

(** [list.remove]: drops the first occurrence, [ValueError] without one. *)
Fixpoint list_remove (j : Job) (l : list Job) : result (list Job) :=
  match l with
  | [] => Err ValueError
  | x :: l' =>
      if same x j then Ok l'
      else rbind (list_remove j l') (fun r => Ok (x :: r))
  end.

(** [JobMananger.cancel]. *)
Definition cancel (j : Job) (w : World) : World :=
  match list_remove j (jobs w) with
  | Ok l => set_jobs l w
  | Err _ => w
  end.

(** [JobMananger.clear]. *)
Definition clear (t : option string) (w : World) : World :=
  match t with
  | None => set_jobs [] w
  | Some t' =>
      set_jobs (List.filter (fun j => negb (bool_decide (t' ∈ tags j))) (jobs w)) w
  end.

(** [JobMananger.cancel_all_jobs]. *)
Definition cancel_all_jobs (w : World) : World := set_jobs [] w.

(** [Job.__lt__]; comparing with a [next_run] that is still [None] is a
    [TypeError]. *)
Definition Job_lt (a b : Job) : result bool :=
  match next_run a, next_run b with
  | Some x, Some y => Ok (DT.lt x y)
  | _, _ => Err TypeError
  end.

(** The builtin [min] on a list: the candidate is replaced only by an item
    that is less than it. *)
Fixpoint min_from (best : Job) (l : list Job) : result Job :=
  match l with
  | [] => Ok best
  | x :: l' =>
      rbind (Job_lt x best) (fun b => min_from (if b then x else best) l')
  end.

Definition py_min (l : list Job) : result Job :=
  match l with
  | [] => Err ValueError
  | x :: l' => min_from x l'
  end.

(** [JobMananger.get_next_job]. *)
Definition get_next_job (w : World) : result (option Job) :=
  match jobs w with
  | [] => Ok None
  | l => rbind (py_min l) (fun j => Ok (Some j))
  end.

(** [JobMananger.idle_seconds]: the attribute [next_run] is read from
    whatever [get_next_job] returned. *)
Definition idle_seconds (w : World) : result DT.pyfloat :=
  rbind (get_next_job w) (fun next_job =>
    match next_job with
    | None => Err AttributeError
    | Some j =>
        match next_run j with
        | None => Err TypeError
        | Some t => Ok (DT.total_seconds (DT.sub t (now w)))
        end
    end).

(** The state after a call that left the job object as [j] and the
    generator as [g]. *)
Definition commit (j : Job) (g : rng) (w : World) : World :=
  set_rand g (set_jobs (store j (jobs w)) w).

(** [Job.do], with the fuel of the catch-up loop. *)
Definition do (fuel : nat) (f : binding) (s : Job * World)
  : outcome (Job * World) Datatypes.unit :=
  let '(j, w) := s in
  if negb (bool_decide (unit j ∈ map Some unit_types)) then
    Raised AssertionError s
  else
    let j := set_event_kwargs (Some f) j in
    match _schedule_first_run fuel (now w) (j, rand w) with
    | Returned _ (j', g) =>
        Returned tt (j', subscribe (event_name j') (add_job j' (commit j' g w)))
    | Raised e (j', g) => Raised e (j', commit j' g w)
    | OutOfFuel (j', g) => OutOfFuel (j', commit j' g w)
    end.

(** The event that [gen_event] builds for a job: its instant is the
    [next_run] that the job has at that moment. *)
Definition event_of (j : Job) : Event :=
  mkEvent (event_name j) (next_run j) (event_kwargs j).

(** [Job.gen_event] on the job object [j] of the manager. *)
Definition gen_event (j : Job) (w : World) : outcome World Event :=
  let event := event_of j in
  match unit j with
  | Some Once => Returned event (cancel j w)
  | _ =>
      match _schedule_next_run (set_last_run (next_run j) j, rand w) with
      | Returned _ (j', g) => Returned event (commit j' g w)
      | Raised e (j', g) => Raised e (commit j' g w)
      | OutOfFuel (j', g) => OutOfFuel (commit j' g w)
      end
  end.

(** ** The drivers *)

(** What both drivers do with a job they have decided to fire:
    [put_event(next_job.gen_event())], then the job is cancelled if it is a
    once job.  [None] is the [next_job] of an empty manager. *)
Definition fire (next_job : option Job) (w : World) : outcome World Datatypes.unit :=
  match next_job with
  | None => Raised AttributeError w
  | Some j =>
      match gen_event j w with
      | Returned e w' =>
          let w' := put_event e w' in
          Returned tt (if bool_decide (unit j = Some Once) then cancel j w' else w')
      | Raised e w' => Raised e w'
      | OutOfFuel w' => OutOfFuel w'
      end
  end.

Module BackTrackScheduler.

(** One iteration of the loop of [gen_events]; [true] is [break]. *)
Definition iteration (limit_dt : option datetime) (w : World)
  : outcome World bool :=
  match get_next_job w with
  | Err e => Raised e w
  | Ok next_job =>
      let stop :=
        match limit_dt, next_job with
        | Some l, Some j =>
            match next_run j with
            | Some t => Ok (DT.gt t l)
            | None => Err TypeError
            end
        | _, _ => Ok false
        end in
      match stop with
      | Err e => Raised e w
      | Ok true => Returned true w
      | Ok false =>
          match fire next_job w with
          | Returned _ w' => Returned false w'
          | Raised e w' => Raised e w'
          | OutOfFuel w' => OutOfFuel w'
          end
      end
  end.

(** [BackTrackScheduler.gen_events]: it returns when the loop breaks. *)
Fixpoint gen_events (fuel : nat) (limit_dt : option datetime) (w : World)
  : outcome World Datatypes.unit :=
  match fuel with
  | O => OutOfFuel w
  | S fuel' =>
      match iteration limit_dt w with
      | Returned true w' => Returned tt w'
      | Returned false w' => gen_events fuel' limit_dt w'
      | Raised e w' => Raised e w'
      | OutOfFuel w' => OutOfFuel w'
      end
  end.

End BackTrackScheduler.

Module LiveScheduler.

(** One iteration of the loop of [gen_events]; when nothing is due the
    driver only sleeps. *)
Definition iteration (w : World) : outcome World Datatypes.unit :=
  match get_next_job w with
  | Err e => Raised e w
  | Ok None => Returned tt w
  | Ok (Some j) =>
      match next_run j with
      | None => Raised TypeError w
      | Some t =>
          if DT.le t (now w) then fire (Some j) w else Returned tt w
      end
  end.

(** [LiveScheduler.gen_events] has no exit: [clock] lists the values of
    [env.now] at the successive polls, and the result is the state after
    the last of them. *)
Fixpoint gen_events (clock : list datetime) (w : World)
  : outcome World Datatypes.unit :=
  match clock with
  | [] => OutOfFuel w
  | t :: clock' =>
      match iteration (set_now t w) with
      | Returned _ w' => gen_events clock' w'
      | r => r
      end
  end.

(** [LiveScheduler.stop]. *)
Definition stop (w : World) : World := cancel_all_jobs w.

End LiveScheduler.

(** ** Scenarios and the predicates of the statements *)

(** Scenario A: a parser that reads "10:00" on 2024-01-01, and the job
    [every(1).days().at("10:00")]. *)
Definition ten_o_clock (_ : string) : result datetime :=
  Ok (mkdt 2024 1 1 10 0 0 0).

Definition daily_at_ten : Job :=
  final (at_ ten_o_clock (Some "10:00"%string) (days (every 0 "Job1" 1))).

(** Every job of the list has been given a [next_run], as [do] does before
    it registers a job. *)
Definition scheduled (l : list Job) : Prop :=
  Forall (fun j => is_Some (next_run j)) l.

(** Position [i] holds the job to run next at [t]: no job of [l] runs
    before [t], and every job registered earlier runs strictly later. *)
Definition first_earliest (l : list Job) (i : nat) (t : datetime) : Prop :=
  (forall k x tx, l !! k = Some x -> next_run x = Some tx -> DT.lt tx t = false)
  /\ (forall k x tx, l !! k = Some x -> next_run x = Some tx -> (k < i)%nat ->
      DT.lt t tx = true).

(** A once job as [do] leaves it in the manager: bound to a function and
    due at its anchor [t]. *)
Definition once_job (o : nat) (id : string) (t : datetime) : Job :=
  set_next_run (Some t)
    (set_event_kwargs (Some (mkBinding "f" [] []))
       (set_offset_dt t (Job_init o id 0 (Some Once)))).

(** A manager with the given jobs, an empty event queue and the clock at
    [t]. *)
Definition world_of (t : datetime) (l : list Job) : World :=
  mkWorld t l [] [] [].

(** Three instants of one morning, and a manager in which the two jobs due
    first are due at the same instant. *)
Definition T1 : datetime := mkdt 2024 1 1 10 0 0 0.
Definition T2 : datetime := mkdt 2024 1 1 11 0 0 0.
Definition T3 : datetime := mkdt 2024 1 1 12 0 0 0.

Definition tie_world : World :=
  world_of (mkdt 2024 1 1 9 0 0 0)
    [once_job 0 "Job1" T2; once_job 1 "Job2" T1; once_job 2 "Job3" T1].

(** The entries of the manager's list that are the job object [j]: the job
    is registered once when this is [[j]], and absent when it is empty. *)
Definition copies (j : Job) (l : list Job) : list Job :=
  List.filter (fun x => same x j) l.

(** No other job of the list has the event name of [j]. *)
Definition own_name (j : Job) (l : list Job) : Prop :=
  Forall (fun x => same x j = false -> event_name x <> event_name j) l.

(** The number of events of the queue that carry the event name of [j]. *)
Definition fired (j : Job) (q : list Event) : nat :=
  length (List.filter (fun e => String.eqb (name e) (event_name j)) q).

(** Scenario D with the jobs registered out of order. *)
Definition drain_world : World :=
  world_of (mkdt 2024 1 1 9 0 0 0)
    [once_job 1 "Job2" T2; once_job 0 "Job1" T1; once_job 2 "Job3" T3].

(** The two states of a once job [j] in a run that starts with [c] of its
    events in the queue: registered once and not fired since, or fired once
    and absent. *)
Definition waiting (c : nat) (j : Job) (w : World) : Prop :=
  copies j (jobs w) = [j] /\ own_name j (jobs w) /\ fired j (queue w) = c.

Definition fired_and_gone (c : nat) (j : Job) (w : World) : Prop :=
  copies j (jobs w) = [] /\ own_name j (jobs w) /\ fired j (queue w) = S c.

(** Two records of a job that differ at most in the instants [next_run]
    and [last_run]. *)
Definition same_config (a b : Job) : Prop :=
  oid a = oid b /\ job_id a = job_id b /\ unit a = unit b
  /\ min_step a = min_step b /\ max_step a = max_step b
  /\ event_kwargs a = event_kwargs b /\ tags a = tags b
  /\ offset_dt a = offset_dt b.

(** A manager with a tagged and an untagged job. *)
Definition tagged_world : World :=
  world_of (mkdt 2024 1 1 9 0 0 0)
    [set_tags {["daily_task"]} (once_job 0 "Job1" T2);
     set_tags {["other"]} (once_job 1 "Job2" T1);
     once_job 2 "Job3" T3].

(** The event [e] is dated, and not before [lo]. *)
Definition not_before (lo : datetime) (e : Event) : Prop :=
  exists t, dt e = Some t /\ DT.lt t lo = false.

(** The events are dated and none of them is before an earlier one of the
    list. *)
Fixpoint chronological (evs : list Event) : Prop :=
  match evs with
  | [] => True
  | e :: evs' =>
      match dt e with
      | Some t => Forall (not_before t) evs'
      | None => False
      end
      /\ chronological evs'
  end.

(** The event [e] is dated, and not after [hi]. *)
Definition not_after (hi : datetime) (e : Event) : Prop :=
  exists t, dt e = Some t /\ DT.le t hi = true.

(** [m] and [d] are a month and a day of the year [y]. *)
Definition is_date (y m d : Z) : Prop :=
  1 <= m <= 12 /\ 1 <= d <= DT.days_in_month y m.

(** The length of a step of one unit, for the units of fixed length. *)
Definition unit_us (u : Unit) : option Z :=
  match u with
  | Seconds => Some DT.US_PER_SECOND
  | Minutes => Some (60 * DT.US_PER_SECOND)
  | Hours => Some (3600 * DT.US_PER_SECOND)
  | Days => Some DT.US_PER_DAY
  | Weeks => Some (7 * DT.US_PER_DAY)
  | _ => None
  end.

(** The end of [_ord2ymd]: the month and the day of the [n]-th day of a
    year, counted from 0, given whether the year is a leap year. *)
Definition month_day (leapyear : bool) (n : Z) : Z * Z :=
  let m := Z.shiftr (n + 50) 5 in
  let preceding :=
    nth (Z.to_nat m) DT.DAYS_BEFORE_MONTH 0
    + (if (2 <? m) && leapyear then 1 else 0) in
  if n <? preceding then
    let m := m - 1 in
    let preceding :=
      preceding
      - (nth (Z.to_nat m) DT.DAYS_IN_MONTH 0
         + (if (m =? 2) && leapyear then 1 else 0)) in
    (m, n - preceding + 1)
  else (m, n - preceding + 1).

(** What [month_day] has to satisfy, as a test. *)
Definition month_day_ok (leapyear : bool) (n : Z) : bool :=
  let '(m, d) := month_day leapyear n in
  (1 <=? m) && (m <=? 12) && (1 <=? d)
  && (d <=? (if (m =? 2) && leapyear then 29
             else nth (Z.to_nat m) DT.DAYS_IN_MONTH 0))
  && (nth (Z.to_nat m) DT.DAYS_BEFORE_MONTH 0
      + (if (2 <? m) && leapyear then 1 else 0) + d =? n + 1).

(** [now] with the fields below the unit taken from the anchor [off]: what
    [bench_dt] is when that instant exists. *)
Definition bench_of (u : option Unit) (off now : datetime) : datetime :=
  match u with
  | Some Minutes =>
      mkdt (DT.year now) (DT.month now) (DT.day now) (DT.hour now)
           (DT.minute now) (DT.second off) (DT.microsecond now)
  | Some Hours =>
      mkdt (DT.year now) (DT.month now) (DT.day now) (DT.hour now)
           (DT.minute off) (DT.second off) (DT.microsecond now)
  | Some Days =>
      mkdt (DT.year now) (DT.month now) (DT.day now) (DT.hour off)
           (DT.minute off) (DT.second off) (DT.microsecond now)
  | Some Months =>
      mkdt (DT.year now) (DT.month now) (DT.day off) (DT.hour off)
           (DT.minute off) (DT.second off) (DT.microsecond now)
  | Some Years =>
      mkdt (DT.year now) (DT.month off) (DT.day off) (DT.hour off)
           (DT.minute off) (DT.second off) (DT.microsecond now)
  | _ => now
  end.

(** The months of an instant, counted from year 0. *)
Definition month_index (a : datetime) : Z := 12 * DT.year a + DT.month a.

(** A job that the drivers can fire and reschedule: its [next_run] is a
    valid instant, and it is a once job or a job with a unit and steps of
    at least 1. *)
Definition well_formed (x : Job) : Prop :=
  (exists t, next_run x = Some t /\ DT.valid t = true)
  /\ (unit x = Some Once \/ (is_Some (unit x) /\ 1 <= min_step x)).

(** The job is due at [lo] or later. *)
Definition due_from (lo : datetime) (x : Job) : Prop :=
  exists t, next_run x = Some t /\ DT.lt t lo = false.

(** A manager with a once job and two periodic jobs. *)
Definition mixed_world : World :=
  world_of (mkdt 2024 1 1 9 0 0 0)
    [set_next_run (Some T2) (hours (every 0 "Job1" 2));
     once_job 1 "Job2" T3;
     set_next_run (Some T1) (minutes (every 2 "Job3" 45))].

(** * Properties *)

(** ** The order on instants *)

Lemma lex_compare_refl (a : list Z) : DT.lex_compare a a = Eq.
Proof.
  induction a as [|x a IH]; simpl; [reflexivity|].
  now rewrite Z.compare_refl.
Qed.

Lemma lex_compare_antisym (a b : list Z) :
  DT.lex_compare b a = CompOpp (DT.lex_compare a b).
Proof.
  revert b; induction a as [|x a IH]; intros [|y b]; simpl; try reflexivity.
  rewrite (Z.compare_antisym x y).
  destruct (x ?= y); simpl; auto.
Qed.

Lemma lex_compare_lt_trans (a b c : list Z) :
  DT.lex_compare a b = Lt -> DT.lex_compare b c = Lt -> DT.lex_compare a c = Lt.
Proof.
  revert b c; induction a as [|x a IH]; intros [|y b] [|z c]; simpl;
    try congruence.
  destruct (Z.compare_spec x y), (Z.compare_spec y z); try congruence; subst;
    intros Hab Hbc.
  - rewrite Z.compare_refl. eauto.
  - now apply Z.compare_lt_iff in H0 as ->.
  - now apply Z.compare_lt_iff in H as ->.
  - assert (x < z) as ->%Z.compare_lt_iff by lia. reflexivity.
Qed.

Lemma dt_lt_irrefl (a : datetime) : DT.lt a a = false.
Proof. unfold DT.lt, DT.compare. now rewrite lex_compare_refl. Qed.

Lemma dt_gt_lt (a b : datetime) : DT.gt a b = DT.lt b a.
Proof.
  unfold DT.gt, DT.lt, DT.compare.
  rewrite (lex_compare_antisym (DT.fields a) (DT.fields b)).
  now destruct (DT.lex_compare (DT.fields a) (DT.fields b)).
Qed.

Lemma dt_le_lt (a b : datetime) : DT.le a b = negb (DT.lt b a).
Proof.
  unfold DT.le, DT.lt, DT.compare.
  rewrite (lex_compare_antisym (DT.fields a) (DT.fields b)).
  now destruct (DT.lex_compare (DT.fields a) (DT.fields b)).
Qed.

Lemma dt_lt_asym (a b : datetime) : DT.lt a b = true -> DT.lt b a = false.
Proof.
  unfold DT.lt, DT.compare.
  rewrite (lex_compare_antisym (DT.fields a) (DT.fields b)).
  now destruct (DT.lex_compare (DT.fields a) (DT.fields b)).
Qed.

Lemma dt_lt_trans (a b c : datetime) :
  DT.lt a b = true -> DT.lt b c = true -> DT.lt a c = true.
Proof.
  unfold DT.lt, DT.compare. intros Hab Hbc.
  rewrite (lex_compare_lt_trans (DT.fields a) (DT.fields b) (DT.fields c)).
  - reflexivity.
  - now destruct (DT.lex_compare (DT.fields a) (DT.fields b)).
  - now destruct (DT.lex_compare (DT.fields b) (DT.fields c)).
Qed.

(** [a <= b < c] gives [a < c]. *)
Lemma dt_le_lt_trans (a b c : datetime) :
  DT.lt b a = false -> DT.lt b c = true -> DT.lt a c = true.
Proof.
  unfold DT.lt, DT.compare. intros Hab Hbc.
  rewrite (lex_compare_antisym (DT.fields a) (DT.fields b)) in Hab.
  destruct (DT.lex_compare (DT.fields a) (DT.fields b)) eqn:E;
    simpl in Hab; try discriminate.
  - assert (DT.fields a = DT.fields b) as ->; [|now destruct (DT.lex_compare _ _)].
    clear Hab Hbc. revert E. generalize (DT.fields a) (DT.fields b).
    induction l as [|x l IH]; intros [|y l']; simpl; try congruence.
    destruct (Z.compare_spec x y); try congruence.
    intros ?%IH. congruence.
  - rewrite (lex_compare_lt_trans _ _ _ E); [reflexivity|].
    now destruct (DT.lex_compare (DT.fields b) (DT.fields c)).
Qed.

(** ** First run *)

(** When the catch-up loop returns, its guard is false: the job has a
    [next_run] and it is not before [now]. *)
Lemma catch_up_returns (fuel : nat) (now : datetime) (s s' : JS) :
  catch_up fuel now s = Returned tt s' ->
  exists t, next_run (fst s') = Some t /\ DT.lt t now = false.
Proof.
  revert s; induction fuel as [|fuel IH]; intros [j g]; cbn [catch_up];
    [discriminate|].
  destruct (next_run j) as [t|] eqn:Ht; [|discriminate].
  destruct (DT.lt t now) eqn:Hlt.
  - destruct (_schedule_next_run _) as [[] s1|e s1|s1] eqn:Hn; try discriminate.
    apply IH.
  - intros [= <-]. exists t. auto.
Qed.

(** C1 as stated fails.  A once job whose anchor is the default 1970 epoch
    is scheduled at the epoch, long before a [now] in 2024; and a job every
    0 seconds, for which bench plus step is [now] itself, is scheduled at
    [now], which is not strictly after [now]. *)
Lemma first_run_can_be_at_or_before_now :
  (let j := Job_init 0 "Job1" 0 (Some Once) in
   let now := mkdt 2024 1 1 9 0 0 0 in
   _schedule_first_run 1 now (j, [])
     = Returned tt (set_next_run (Some epoch) j, [])
   /\ DT.lt epoch now = true)
  /\
  (let j := seconds (every 0 "Job1" 0) in
   let now := mkdt 2024 1 1 9 0 0 0 in
   _schedule_first_run 1 now (j, [])
     = Returned tt (set_next_run (Some now) j, [])
   /\ DT.lt now now = false).
Proof. vm_compute. repeat split. Qed.

(** C2, as amended.  With the anchor text "10:00" (parsed to a datetime at
    10:00:00 of whatever day), unit days, step 1 and [now] =
    2024-01-01T09:00:00, the first run is 2024-01-02T10:00:00: the step is
    added to the bench 2024-01-01T10:00:00. *)
Theorem scenario_A_first_run
  (parse_dt : string -> result datetime) (a : datetime)
  (o : nat) (id : string) (fuel : nat) (g : rng) :
  parse_dt "10:00"%string = Ok a ->
  DT.hour a = 10 -> DT.minute a = 0 -> DT.second a = 0 ->
  exists j g',
    at_ parse_dt (Some "10:00"%string) (days (every o id 1)) = Returned tt j
    /\ _schedule_first_run (S fuel) (mkdt 2024 1 1 9 0 0 0) (j, g)
       = Returned tt (set_next_run (Some (mkdt 2024 1 2 10 0 0 0)) j, g').
Proof.
  intros Hp Hh Hm Hs. exists (set_offset_dt a (days (every o id 1))).
  assert (at_ parse_dt (Some "10:00"%string) (days (every o id 1))
          = Returned tt (set_offset_dt a (days (every o id 1)))) as Hat.
  { unfold at_. cbn [String.eqb Ascii.eqb Bool.eqb]. now rewrite Hp. }
  destruct a as [ay amo ad ah ami as_ aus]. cbn in Hh, Hm, Hs. subst.
  unfold _schedule_first_run, days, every, Job_init, set_unit, set_offset_dt.
  cbn [unit min_step max_step offset_dt].
  assert (exists g', randint 1 1 g = (Ok 1, g')) as [g' ->].
  { unfold randint. cbn. destruct g as [|r g]; eexists; [reflexivity|].
    now rewrite Z.mod_1_r. }
  exists g'. split; [exact Hat|].
  unfold bench_dt, replay_dict. cbn [unit offset_dt DT.year DT.hour DT.minute DT.second].
  destruct (ay <? 2024); vm_compute; reflexivity.
Qed.

Lemma scenario_A_first_run_witness :
  exists j g',
    at_ ten_o_clock (Some "10:00"%string) (days (every 0 "Job1" 1)) = Returned tt j
    /\ _schedule_first_run 1 (mkdt 2024 1 1 9 0 0 0) (j, [])
       = Returned tt (set_next_run (Some (mkdt 2024 1 2 10 0 0 0)) j, g').
Proof.
  apply (scenario_A_first_run ten_o_clock (mkdt 2024 1 1 10 0 0 0) 0 "Job1" 0 []);
    reflexivity.
Defined.

(** C2 as stated fails: in scenario A the first run is not
    2024-01-01T10:00:00. *)
Lemma scenario_A_first_run_is_not_today :
  exists j',
    _schedule_first_run 1 (mkdt 2024 1 1 9 0 0 0) (daily_at_ten, [])
    = Returned tt (j', [])
    /\ next_run j' <> Some (mkdt 2024 1 1 10 0 0 0).
Proof.
  eexists. split; [vm_compute; reflexivity|]. vm_compute. discriminate.
Qed.

(** C5 at its failing input.  For a weekly job, whatever its anchor, the
    bench at 2024-01-01T08:00:00 is that instant unchanged: the hour, minute
    and second of the anchor are not copied. *)
Theorem weeks_bench_is_now (j : Job) :
  bench_dt (weeks j) (mkdt 2024 1 1 8 0 0 0) = Ok (mkdt 2024 1 1 8 0 0 0).
Proof.
  unfold bench_dt, replay_dict, weeks, set_unit. cbn [unit offset_dt DT.year].
  destruct (DT.year (offset_dt j) <? 2024); vm_compute; reflexivity.
Qed.

(** ** Selection of the next job *)

Lemma lex_compare_eq (a b : list Z) : DT.lex_compare a b = Eq -> a = b.
Proof.
  revert b; induction a as [|x a IH]; intros [|y b]; simpl; try congruence.
  destruct (Z.compare_spec x y); try congruence.
  intros ?%IH. congruence.
Qed.

(** [a < b <= c] gives [a < c]. *)
Lemma dt_lt_le_trans (a b c : datetime) :
  DT.lt a b = true -> DT.lt c b = false -> DT.lt a c = true.
Proof.
  intros Hab Hcb. destruct (DT.lt b c) eqn:Hbc.
  - eapply dt_lt_trans; eassumption.
  - revert Hab Hcb Hbc. unfold DT.lt, DT.compare.
    rewrite (lex_compare_antisym (DT.fields b) (DT.fields c)).
    destruct (DT.lex_compare (DT.fields b) (DT.fields c)) eqn:E;
      cbn [CompOpp]; try discriminate.
    apply lex_compare_eq in E. now rewrite E.
Qed.

Lemma first_earliest_snoc_keep (l : list Job) (i : nat) (t : datetime) (x : Job) (tx : datetime) :
  (i < length l)%nat -> next_run x = Some tx -> DT.lt tx t = false ->
  first_earliest l i t -> first_earliest (l ++ [x]) i t.
Proof.
  intros Hi Hx Hlt [Hmin Hfirst]. split; intros k y ty Hk Hy.
  - destruct (decide (k < length l)%nat) as [Hlen|Hlen].
    + rewrite lookup_app_l in Hk by exact Hlen. eauto.
    + rewrite lookup_app_r in Hk by lia.
      destruct (k - length l)%nat; [|discriminate].
      injection Hk as <-. congruence.
  - intros Hki. rewrite lookup_app_l in Hk by lia. eauto.
Qed.

Lemma first_earliest_snoc_new (l : list Job) (i : nat) (t : datetime) (x : Job) (tx : datetime) :
  next_run x = Some tx -> DT.lt tx t = true ->
  first_earliest l i t -> first_earliest (l ++ [x]) (length l) tx.
Proof.
  intros Hx Hlt [Hmin Hfirst]. split; intros k y ty Hk Hy.
  - destruct (decide (k < length l)%nat) as [Hlen|Hlen].
    + rewrite lookup_app_l in Hk by exact Hlen.
      destruct (DT.lt ty tx) eqn:E; [|reflexivity].
      specialize (Hmin k y ty Hk Hy). rewrite (dt_lt_trans _ _ _ E Hlt) in Hmin.
      discriminate.
    + rewrite lookup_app_r in Hk by lia.
      destruct (k - length l)%nat; [|discriminate].
      injection Hk as <-. assert (ty = tx) as -> by congruence.
      apply dt_lt_irrefl.
  - intros Hki. rewrite lookup_app_l in Hk by lia.
    eapply dt_lt_le_trans; eauto.
Qed.

(** [min] keeps as candidate the first earliest job of what it has
    scanned: [pre] is the part already scanned and [l] the rest. *)
Lemma min_from_first_earliest (l pre : list Job) (best : Job) (i : nat) (tb : datetime) :
  pre !! i = Some best -> next_run best = Some tb ->
  first_earliest pre i tb -> scheduled l ->
  exists j i' t,
    min_from best l = Ok j /\ (pre ++ l) !! i' = Some j
    /\ next_run j = Some t /\ first_earliest (pre ++ l) i' t.
Proof.
  revert pre best i tb.
  induction l as [|x l IH]; intros pre best i tb Hi Hb Hfe Hs.
  - exists best, i, tb. rewrite app_nil_r. auto.
  - inversion Hs as [|? ? [tx Hx] Hs']; subst.
    cbn [min_from]. unfold Job_lt. rewrite Hx, Hb. cbn [rbind].
    replace (pre ++ x :: l) with ((pre ++ [x]) ++ l)
      by now rewrite <- app_assoc.
    destruct (DT.lt tx tb) eqn:Hlt.
    + apply (IH (pre ++ [x]) x (length pre) tx); auto.
      * rewrite lookup_app_r by lia. now rewrite Nat.sub_diag.
      * eapply first_earliest_snoc_new; eauto.
    + apply (IH (pre ++ [x]) best i tb); auto.
      * apply lookup_app_l_Some. exact Hi.
      * eapply first_earliest_snoc_keep; eauto.
        eapply lookup_lt_Some; eauto.
Qed.

(** C3.  In a manager that holds at least one job, all of them scheduled,
    [get_next_job] returns the job at a position [i] of the registration
    order such that no job runs before it and every job registered earlier
    runs strictly later; so among jobs that share the earliest [next_run]
    it is the one registered first.  The call reads the manager only and
    its result is a function of the state, which makes it repeatable. *)
Theorem get_next_job_first_earliest (w : World) :
  jobs w <> [] -> scheduled (jobs w) ->
  exists i j t,
    get_next_job w = Ok (Some j)
    /\ jobs w !! i = Some j
    /\ next_run j = Some t
    /\ first_earliest (jobs w) i t
    /\ (forall k x, jobs w !! k = Some x -> next_run x = next_run j -> (i <= k)%nat).
Proof.
  unfold get_next_job. destruct (jobs w) as [|x l] eqn:Hj; [congruence|].
  intros _ Hs. inversion Hs as [|? ? [tx Hx] Hs']; subst.
  destruct (min_from_first_earliest l [x] x 0 tx) as (j & i & t & Hm & Hi & Ht & Hfe);
    auto.
  { split; intros k y ty Hk Hy.
    - destruct k; [|discriminate]. injection Hk as <-.
      assert (ty = tx) as -> by congruence. apply dt_lt_irrefl.
    - lia. }
  exists i, j, t. cbn [py_min]. rewrite Hm. cbn [rbind app] in *.
  repeat split; try tauto; try apply Hfe.
  intros k y Hk Hy. destruct (decide (i <= k)%nat) as [|Hlt]; [assumption|].
  destruct Hfe as [_ Hfirst].
  rewrite Ht in Hy. specialize (Hfirst k y t Hk Hy ltac:(lia)).
  now rewrite dt_lt_irrefl in Hfirst.
Qed.

Lemma get_next_job_first_earliest_witness :
  exists i j t,
    get_next_job tie_world = Ok (Some j)
    /\ jobs tie_world !! i = Some j
    /\ next_run j = Some t
    /\ first_earliest (jobs tie_world) i t
    /\ (forall k x, jobs tie_world !! k = Some x -> next_run x = next_run j ->
        (i <= k)%nat).
Proof.
  apply (get_next_job_first_earliest tie_world).
  - simpl. discriminate.
  - simpl. repeat constructor; eexists; reflexivity.
Defined.

(** The hypothesis [scheduled] is what [do] maintains: a job enters the
    manager only after [_schedule_first_run] has given it a [next_run]. *)
Lemma first_run_sets_next_run
  (fuel : nat) (now : datetime) (s : JS) (j' : Job) (g' : rng) :
  _schedule_first_run fuel now s = Returned tt (j', g') ->
  is_Some (next_run j').
Proof.
  destruct s as [j g]. unfold _schedule_first_run.
  assert (forall s0, catch_up fuel now s0 = Returned tt (j', g') ->
                     is_Some (next_run j')) as Hloop.
  { intros s0 (t & Ht & _)%catch_up_returns. now exists t. }
  destruct (unit j) as [[]|];
    try (intros [= <- <-]; now eexists);
    (destruct (randint _ _ _) as [[step|e] g1]; [|discriminate];
     destruct (rbind _ _) as [t|e]; [|discriminate]; apply Hloop).
Qed.

Lemma do_keeps_scheduled
  (fuel : nat) (f : binding) (j j' : Job) (w w' : World) :
  do fuel f (j, w) = Returned tt (j', w') ->
  scheduled (jobs w) -> scheduled (jobs w').
Proof.
  unfold do. destruct (bool_decide _); cbn [negb]; [|discriminate].
  destruct (_schedule_first_run _ _ _) as [[] [j1 g1]|e [j1 g1]|[j1 g1]] eqn:E;
    try discriminate.
  intros [= <- <-] Hs. apply first_run_sets_next_run in E.
  unfold scheduled, subscribe, add_job, commit, store in *.
  cbn [jobs set_jobs set_rand]. apply Forall_app. split.
  - induction Hs as [|x l Hx Hl IH]; cbn [map]; constructor; auto.
    now destruct (same x j1).
  - now constructor.
Qed.

(** ** An empty manager *)

(** C4 at its failing input.  On a manager without jobs the loop of the
    BackTrack driver does not break: with or without a horizon its first
    iteration calls [gen_event] on [None] and raises [AttributeError],
    leaving the state as it was. *)
Theorem backtrack_empty_raises
  (fuel : nat) (limit_dt : option datetime)
  (t : datetime) (q : list Event) (sub : list string) (g : rng) :
  BackTrackScheduler.gen_events (S fuel) limit_dt (mkWorld t [] q sub g)
  = Raised AttributeError (mkWorld t [] q sub g).
Proof. destruct limit_dt; reflexivity. Qed.

(** C6 at its failing input.  On a manager without jobs [idle_seconds]
    does not return [None]: it reads [next_run] from the [None] that
    [get_next_job] returned and raises [AttributeError]. *)
Theorem idle_seconds_empty_raises
  (t : datetime) (q : list Event) (sub : list string) (g : rng) :
  idle_seconds (mkWorld t [] q sub g) = Err AttributeError.
Proof. reflexivity. Qed.

(** The float of a number of microseconds is zero or negative exactly when
    the number is: one microsecond is far above [2**-1075]. *)
Lemma total_seconds_nonpositive (td : Z) :
  DT.nonpositive (DT.total_seconds td) <-> td <= 0.
Proof.
  unfold DT.nonpositive, DT.total_seconds, Qle. cbn [Qnum Qden].
  set (P := Z.pos (2 ^ 1075)).
  assert (1000000 < P) as HP by (subst P; vm_compute; reflexivity).
  clearbody P. nia.
Qed.

(** With jobs, [idle_seconds] is the float of the time from [now] to the
    [next_run] of the job that [get_next_job] selects; it is zero or
    negative exactly when that instant is not ahead in microseconds. *)
Lemma idle_seconds_next_job (w : World) (j : Job) (t : datetime) :
  get_next_job w = Ok (Some j) -> next_run j = Some t ->
  idle_seconds w = Ok (DT.total_seconds (DT.sub t (now w)))
  /\ (DT.nonpositive (DT.total_seconds (DT.sub t (now w)))
      <-> DT.to_us t <= DT.to_us (now w)).
Proof.
  intros Hg Ht. unfold idle_seconds. rewrite Hg. cbn [rbind]. rewrite Ht.
  split; [reflexivity|].
  rewrite total_seconds_nonpositive. unfold DT.sub. lia.
Qed.

(** ** Configuration errors *)

(** C9.  [to] with a maximum below the minimum raises [AssertionError],
    whatever the unit of the job; it works on the job alone, which is not
    in any manager yet.  [do] on a job without a unit raises
    [AssertionError] and leaves the job and the manager exactly as they
    were: no function is bound, no first run is computed, no job is added
    and nothing is subscribed. *)
Theorem configuration_errors_fail_fast
  (step : Z) (fuel : nat) (f : binding) (j_to j_do : Job) (w : World) :
  step < min_step j_to -> unit j_do = None ->
  to step j_to = Raised AssertionError (set_max_step step j_to)
  /\ do fuel f (j_do, w) = Raised AssertionError (j_do, w).
Proof.
  intros Hstep Hunit. split.
  - unfold to. cbn [min_step max_step set_max_step].
    destruct (Z.leb_spec (min_step j_to) step); [lia|reflexivity].
  - unfold do. rewrite Hunit.
    rewrite bool_decide_eq_false_2; [reflexivity|].
    unfold unit_types. cbn [map]. intros H.
    repeat (apply elem_of_cons in H as [H|H]; [discriminate|]).
    now apply elem_of_nil in H.
Qed.

Lemma configuration_errors_fail_fast_witness :
  to 1 (seconds (every 0 "Job1" 3))
  = Raised AssertionError (set_max_step 1 (seconds (every 0 "Job1" 3)))
  /\ do 1 (mkBinding "f" [] []) (every 1 "Job2" 3, world_of T1 [])
     = Raised AssertionError (every 1 "Job2" 3, world_of T1 []).
Proof.
  apply (configuration_errors_fail_fast 1 1 (mkBinding "f" [] [])
           (seconds (every 0 "Job1" 3)) (every 1 "Job2" 3) (world_of T1 [])).
  - simpl. lia.
  - reflexivity.
Defined.

(** ** Tags *)




(** ** Firing *)

Lemma same_refl (j : Job) : same j j = true.
Proof. apply Nat.eqb_refl. Qed.

(** Firing a once job: the event is queued between the removal made by
    [gen_event] and the one made by the driver. *)
Lemma fire_once (j : Job) (w : World) :
  unit j = Some Once ->
  fire (Some j) w = Returned tt (cancel j (put_event (event_of j) (cancel j w))).
Proof.
  intros Hu. unfold fire, gen_event. rewrite Hu.
  now rewrite bool_decide_eq_true_2.
Qed.

Lemma backtrack_iteration_fires_once (l : datetime) (w : World) (j : Job) (t : datetime) :
  get_next_job w = Ok (Some j) -> unit j = Some Once -> next_run j = Some t ->
  DT.lt l t = false ->
  BackTrackScheduler.iteration (Some l) w
  = Returned false (cancel j (put_event (event_of j) (cancel j w))).
Proof.
  intros Hg Hu Ht Hlt. unfold BackTrackScheduler.iteration.
  rewrite Hg, Ht, dt_gt_lt, Hlt. now rewrite fire_once.
Qed.

Lemma backtrack_iteration_breaks (l : datetime) (w : World) (j : Job) (t : datetime) :
  get_next_job w = Ok (Some j) -> next_run j = Some t -> DT.lt l t = true ->
  BackTrackScheduler.iteration (Some l) w = Returned true w.
Proof.
  intros Hg Ht Hlt. unfold BackTrackScheduler.iteration.
  now rewrite Hg, Ht, dt_gt_lt, Hlt.
Qed.

(** The six registration orders of three jobs. *)
Lemma Permutation_three {A : Type} (l : list A) (a b c : A) :
  Permutation l [a; b; c] ->
  l = [a; b; c] \/ l = [a; c; b] \/ l = [b; a; c]
  \/ l = [b; c; a] \/ l = [c; a; b] \/ l = [c; b; a].
Proof.
  intros (k1 & k2 & -> & H)%Permutation_cons_inv_r.
  apply Permutation_length_2_inv in H.
  destruct k1 as [|x [|y [|z k1]]], H as [H|H]; simplify_eq/=; tauto.
Qed.

(** C7.  Three once jobs due at [t1 < t2 < t3], registered in any order,
    and the horizon [t2]: the BackTrack driver returns after it has queued
    the event of the job due at [t1] and then the event of the job due at
    [t2], each with the job's own [next_run] as its instant, and the job
    due at [t3] is the only one left in the manager. *)
Theorem scenario_D_backtrack
  (j1 j2 j3 : Job) (t1 t2 t3 : datetime) (w : World) (fuel : nat) :
  unit j1 = Some Once -> unit j2 = Some Once -> unit j3 = Some Once ->
  next_run j1 = Some t1 -> next_run j2 = Some t2 -> next_run j3 = Some t3 ->
  DT.lt t1 t2 = true -> DT.lt t2 t3 = true ->
  NoDup [oid j1; oid j2; oid j3] ->
  Permutation (jobs w) [j1; j2; j3] ->
  exists w',
    BackTrackScheduler.gen_events (3 + fuel) (Some t2) w = Returned tt w'
    /\ jobs w' = [j3]
    /\ queue w' = queue w ++ [event_of j1; event_of j2]
    /\ dt (event_of j1) = Some t1 /\ dt (event_of j2) = Some t2.
Proof.
  intros Hu1 Hu2 Hu3 Hn1 Hn2 Hn3 H12 H23 Hnd Hperm.
  pose proof (dt_lt_trans _ _ _ H12 H23) as H13.
  pose proof (dt_lt_asym _ _ H12) as H21.
  pose proof (dt_lt_asym _ _ H23) as H32.
  pose proof (dt_lt_asym _ _ H13) as H31.
  assert (same j1 j2 = false /\ same j2 j1 = false
          /\ same j1 j3 = false /\ same j3 j1 = false
          /\ same j2 j3 = false /\ same j3 j2 = false)
    as (E12 & E21 & E13 & E31 & E23 & E32).
  { unfold same. rewrite !Nat.eqb_neq. rewrite !NoDup_cons in Hnd.
    destruct Hnd as (N1 & N2 & _).
    repeat split; intros E; rewrite ?E in *; set_solver. }
  destruct w as [t l q sub g]. cbn [jobs queue] in *.
  assert (forall l' q',
    In l' [[j1; j2; j3]; [j1; j3; j2]; [j2; j1; j3];
           [j2; j3; j1]; [j3; j1; j2]; [j3; j2; j1]] ->
    BackTrackScheduler.iteration (Some t2) (mkWorld t l' q' sub g)
    = Returned false
        (mkWorld t (List.filter (fun x => negb (same x j1)) l')
           (q' ++ [event_of j1]) sub g)) as Step1.
  { intros l' q' Hl'.
    erewrite (backtrack_iteration_fires_once t2 _ j1 t1); auto.
    - unfold cancel, put_event, set_jobs.
      cbn in Hl'. intuition subst;
        repeat progress
          (cbn [jobs list_remove rbind List.filter negb queue now
                subscribed rand];
           rewrite ?same_refl, ?E12, ?E21, ?E13, ?E31, ?E23, ?E32);
        reflexivity.
    - unfold get_next_job. cbn in Hl'.
      intuition subst;
        repeat progress
          (cbn [jobs py_min min_from rbind]; unfold Job_lt;
           rewrite ?Hn1, ?Hn2, ?Hn3, ?H12, ?H21, ?H13, ?H31, ?H23, ?H32);
        reflexivity. }
  assert (forall l' q',
    In l' [[j2; j3]; [j3; j2]] ->
    BackTrackScheduler.iteration (Some t2) (mkWorld t l' q' sub g)
    = Returned false (mkWorld t [j3] (q' ++ [event_of j2]) sub g)) as Step2.
  { intros l' q' Hl'.
    erewrite (backtrack_iteration_fires_once t2 _ j2 t2); auto using dt_lt_irrefl.
    - unfold cancel, put_event, set_jobs.
      cbn in Hl'. intuition subst;
        repeat progress
          (cbn [jobs list_remove rbind queue now subscribed rand];
           rewrite ?same_refl, ?E23, ?E32);
        reflexivity.
    - unfold get_next_job. cbn in Hl'.
      intuition subst;
        repeat progress
          (cbn [jobs py_min min_from rbind]; unfold Job_lt; rewrite ?Hn2, ?Hn3, ?H23, ?H32);
        reflexivity. }
  assert (forall q',
    BackTrackScheduler.iteration (Some t2) (mkWorld t [j3] q' sub g)
    = Returned true (mkWorld t [j3] q' sub g)) as Step3.
  { intros q'. apply (backtrack_iteration_breaks t2 _ j3 t3); auto. }
  eexists. split.
  - change (3 + fuel)%nat with (S (S (S fuel))).
    cbn [BackTrackScheduler.gen_events].
    rewrite Step1.
    2: { apply Permutation_three in Hperm. cbn. intuition auto. }
    assert (In (List.filter (fun x => negb (same x j1)) l) [[j2; j3]; [j3; j2]]) as Hl2.
    { apply Permutation_three in Hperm.
      intuition subst; cbn [List.filter negb];
        rewrite ?same_refl, ?E12, ?E21, ?E13, ?E31, ?E23, ?E32;
        cbn; auto. }
    rewrite (Step2 _ _ Hl2), Step3. reflexivity.
  - cbn [jobs queue]. rewrite <- app_assoc. cbn [app].
    unfold event_of. cbn [dt]. auto.
Qed.

Lemma scenario_D_backtrack_witness :
  exists w',
    BackTrackScheduler.gen_events 3 (Some T2) drain_world = Returned tt w'
    /\ jobs w' = [once_job 2 "Job3" T3]
    /\ queue w' = queue drain_world
                  ++ [event_of (once_job 0 "Job1" T1); event_of (once_job 1 "Job2" T2)]
    /\ dt (event_of (once_job 0 "Job1" T1)) = Some T1
    /\ dt (event_of (once_job 1 "Job2" T2)) = Some T2.
Proof.
  apply (scenario_D_backtrack (once_job 0 "Job1" T1) (once_job 1 "Job2" T2)
           (once_job 2 "Job3" T3) T1 T2 T3 drain_world 0);
    try reflexivity.
  - simpl. apply NoDup_ListNoDup. repeat constructor; simpl; intuition lia.
  - simpl. apply perm_swap.
Defined.

(** ** A once job over a run *)

Lemma same_sym (a b : Job) : same a b = same b a.
Proof. apply Nat.eqb_sym. Qed.

Lemma same_trans_false (a b c : Job) :
  same a b = true -> same b c = false -> same a c = false.
Proof.
  unfold same. intros ->%Nat.eqb_eq. auto.
Qed.

Lemma copies_store (j x' : Job) (l : list Job) :
  same x' j = false -> copies j (store x' l) = copies j l.
Proof.
  intros Hx. induction l as [|x l IH]; [reflexivity|].
  cbn [store map copies List.filter] in *.
  destruct (same x x') eqn:E.
  - rewrite Hx, (same_trans_false x x' j E Hx). exact IH.
  - destruct (same x j); [f_equal|]; exact IH.
Qed.

Lemma copies_remove (j x : Job) (l l' : list Job) :
  same x j = false -> list_remove x l = Ok l' -> copies j l' = copies j l.
Proof.
  intros Hx. revert l'. induction l as [|y l IH]; intros l'; cbn [list_remove];
    [discriminate|].
  destruct (same y x) eqn:E.
  - intros [= <-]. cbn [copies List.filter].
    now rewrite (same_trans_false y x j E Hx).
  - destruct (list_remove x l) as [r|e]; cbn [rbind]; [|discriminate].
    intros [= <-]. cbn [copies List.filter] in *.
    destruct (same y j); [f_equal|]; now apply IH.
Qed.

Lemma copies_remove_self (j : Job) (l : list Job) :
  copies j l = [j] ->
  exists l', list_remove j l = Ok l' /\ copies j l' = [].
Proof.
  induction l as [|y l IH]; cbn [copies List.filter list_remove]; [discriminate|].
  destruct (same y j) eqn:E.
  - intros [= -> Hl]. eauto.
  - intros (l' & -> & Hl')%IH. exists (y :: l'). split; [reflexivity|].
    cbn [copies List.filter]. now rewrite E.
Qed.

Lemma list_remove_absent (j : Job) (l : list Job) :
  copies j l = [] -> list_remove j l = Err ValueError.
Proof.
  induction l as [|y l IH]; cbn [copies List.filter list_remove]; [reflexivity|].
  destruct (same y j); [discriminate|]. now intros ->%IH.
Qed.

(** Cancelling a job that is not in the manager changes nothing. *)
Lemma cancel_absent (j : Job) (w : World) :
  copies j (jobs w) = [] -> cancel j w = w.
Proof. intros H. unfold cancel. now rewrite list_remove_absent. Qed.

Lemma copies_In (j x : Job) (l : list Job) :
  copies j l = [j] -> In x l -> same x j = true -> x = j.
Proof.
  intros Hc Hin Hs.
  assert (In x (copies j l)) as H by (apply filter_In; auto).
  rewrite Hc in H. destruct H as [H|[]]. auto.
Qed.

Lemma own_name_store (j x' : Job) (l : list Job) :
  (same x' j = false -> event_name x' <> event_name j) ->
  own_name j l -> own_name j (store x' l).
Proof.
  intros Hx' Hown. unfold own_name, store in *.
  induction Hown as [|y l Hy Hl IH]; cbn [map]; constructor; auto.
  destruct (same y x'); auto.
Qed.

Lemma own_name_In (j x : Job) (l : list Job) :
  own_name j l -> In x l -> same x j = false -> event_name x <> event_name j.
Proof.
  unfold own_name. intros Hown Hin. induction Hown as [|y l Hy Hl IH].
  - destruct Hin.
  - destruct Hin as [<-|Hin]; auto.
Qed.

Lemma own_name_remove (j x : Job) (l l' : list Job) :
  list_remove x l = Ok l' -> own_name j l -> own_name j l'.
Proof.
  revert l'. induction l as [|y l IH]; intros l'; cbn [list_remove];
    [discriminate|].
  intros H Hown. inversion Hown as [|? ? Hy Hl]; subst.
  destruct (same y x).
  - now injection H as <-.
  - destruct (list_remove x l) as [r|e]; cbn [rbind] in H; [|discriminate].
    injection H as <-. constructor; auto. now apply IH.
Qed.

Lemma cancel_other (j x : Job) (w : World) :
  same x j = false ->
  copies j (jobs (cancel x w)) = copies j (jobs w)
  /\ (own_name j (jobs w) -> own_name j (jobs (cancel x w)))
  /\ queue (cancel x w) = queue w.
Proof.
  intros Hx. unfold cancel.
  destruct (list_remove x (jobs w)) as [l|e] eqn:E; cbn [jobs queue set_jobs];
    [|tauto].
  split; [eapply copies_remove; eauto|].
  split; [eapply own_name_remove; eauto|reflexivity].
Qed.

Lemma commit_other (j x' : Job) (g : rng) (w : World) :
  same x' j = false -> event_name x' <> event_name j ->
  copies j (jobs (commit x' g w)) = copies j (jobs w)
  /\ (own_name j (jobs w) -> own_name j (jobs (commit x' g w)))
  /\ queue (commit x' g w) = queue w.
Proof.
  intros Hx Hn. unfold commit. cbn [jobs queue set_jobs set_rand].
  split; [now apply copies_store|].
  split; [now apply own_name_store|reflexivity].
Qed.

Lemma fired_put (j x : Job) (q : list Event) :
  event_name x <> event_name j ->
  fired j (q ++ [event_of x]) = fired j q.
Proof.
  intros Hn. unfold fired. rewrite List.filter_app, length_app.
  cbn [List.filter event_of name].
  destruct (String.eqb_spec (event_name x) (event_name j)); [contradiction|].
  cbn. lia.
Qed.

(** [_schedule_next_run] changes neither the identity nor the id of the
    job, however it ends. *)
Lemma schedule_next_run_ids (x : Job) (g : rng) :
  let x' := fst (final (_schedule_next_run (x, g))) in
  oid x' = oid x /\ job_id x' = job_id x.
Proof.
  unfold _schedule_next_run.
  destruct (unit x) as [[]|]; cbn; auto;
    destruct (randint _ _ _) as [[step|e] g']; cbn; auto;
    destruct (last_run x); cbn; auto;
    destruct (RD.add _ _); cbn; auto.
Qed.

(** Firing another job than [j] leaves the entries of [j] in the manager
    and the number of its events as they were. *)
Lemma fire_other (j x : Job) (w : World) :
  In x (jobs w) -> same x j = false -> own_name j (jobs w) ->
  let w' := final (fire (Some x) w) in
  copies j (jobs w') = copies j (jobs w)
  /\ own_name j (jobs w')
  /\ fired j (queue w') = fired j (queue w).
Proof.
  intros Hin Hx Hown.
  pose proof (own_name_In j x _ Hown Hin Hx) as Hname.
  destruct (decide (unit x = Some Once)) as [Hu|Hu].
  - rewrite (fire_once x w Hu). cbn [final].
    destruct (cancel_other j x w Hx) as (C1 & O1 & Q1).
    destruct (cancel_other j x (put_event (event_of x) (cancel x w)) Hx)
      as (C2 & O2 & Q2).
    cbn [jobs queue put_event] in *.
    rewrite C2, Q2, Q1, C1. split; [reflexivity|].
    split; [auto|now apply fired_put].
  - unfold fire, gen_event.
    pose proof (schedule_next_run_ids (set_last_run (next_run x) x) (rand w)) as Hid.
    assert (forall x' g, oid x' = oid x /\ job_id x' = job_id x ->
      copies j (jobs (commit x' g w)) = copies j (jobs w)
      /\ own_name j (jobs (commit x' g w))
      /\ queue (commit x' g w) = queue w) as Hc.
    { intros x' g [Ho Hi].
      destruct (commit_other j x' g w) as (C1 & O1 & Q1); auto.
      - unfold same in *. now rewrite Ho.
      - unfold event_name in *. now rewrite Hi. }
    rewrite (bool_decide_eq_false_2 _ Hu).
    destruct (unit x) as [[]|]; try congruence;
      (destruct (_schedule_next_run _) as [[] [x' g]|e [x' g]|[x' g]];
       cbn [final fst] in *; destruct (Hc x' g Hid) as (C1 & O1 & Q1);
       cbn [jobs queue put_event]; rewrite ?Q1;
       repeat split; auto using fired_put).
Qed.

(** Firing the once job [j] itself, which is registered once: its event is
    queued and no entry of [j] is left. *)
Lemma fire_self (j : Job) (w : World) :
  unit j = Some Once -> copies j (jobs w) = [j] -> own_name j (jobs w) ->
  exists w',
    fire (Some j) w = Returned tt w'
    /\ queue w' = queue w ++ [event_of j]
    /\ copies j (jobs w') = []
    /\ own_name j (jobs w')
    /\ fired j (queue w') = S (fired j (queue w))
    /\ cancel j (cancel j w) = cancel j w.
Proof.
  intros Hu Hc Hown. rewrite (fire_once j w Hu). eexists. split; [reflexivity|].
  destruct (copies_remove_self j _ Hc) as (l' & Hr & Hl').
  assert (cancel j w = set_jobs l' w) as Hcw by (unfold cancel; now rewrite Hr).
  rewrite Hcw.
  rewrite !cancel_absent by exact Hl'.
  cbn [queue jobs put_event set_jobs].
  repeat split; auto.
  - eapply own_name_remove; eauto.
  - unfold fired. rewrite List.filter_app, length_app.
    cbn [List.filter event_of name]. rewrite String.eqb_refl. cbn. lia.
Qed.

Lemma min_from_In (l : list Job) (best x : Job) :
  min_from best l = Ok x -> x = best \/ In x l.
Proof.
  revert best. induction l as [|y l IH]; intros best; cbn [min_from].
  - intros [= ->]. auto.
  - destruct (Job_lt y best) as [[]|e]; cbn [rbind]; [| |discriminate];
      intros [->|H]%IH; cbn; auto.
Qed.

Lemma get_next_job_In (w : World) (x : Job) :
  get_next_job w = Ok (Some x) -> In x (jobs w).
Proof.
  unfold get_next_job. destruct (jobs w) as [|y l]; [discriminate|].
  cbn [py_min]. destruct (min_from y l) as [z|e] eqn:E; cbn [rbind];
    [|discriminate].
  intros [= ->]. apply min_from_In in E as [->|H]; cbn; auto.
Qed.

Lemma fire_step_waiting (c : nat) (j x : Job) (w : World) :
  unit j = Some Once -> In x (jobs w) -> waiting c j w ->
  waiting c j (final (fire (Some x) w))
  \/ fired_and_gone c j (final (fire (Some x) w)).
Proof.
  intros Hu Hin (Hc & Hown & Hf). destruct (same x j) eqn:Hs.
  - right. assert (x = j) as -> by (eapply copies_In; eauto).
    destruct (fire_self j w Hu Hc Hown) as (w' & -> & _ & C & O & F & _).
    cbn [final]. unfold fired_and_gone. rewrite F, Hf. auto.
  - left. destruct (fire_other j x w Hin Hs Hown) as (C & O & F).
    unfold waiting. rewrite C, F. auto.
Qed.

Lemma fire_step_gone (c : nat) (j x : Job) (w : World) :
  In x (jobs w) -> fired_and_gone c j w ->
  fired_and_gone c j (final (fire (Some x) w)).
Proof.
  intros Hin (Hc & Hown & Hf).
  assert (same x j = false) as Hs.
  { destruct (same x j) eqn:Hs; [|reflexivity].
    assert (In x (copies j (jobs w))) as H by (apply filter_In; auto).
    rewrite Hc in H. destruct H. }
  destruct (fire_other j x w Hin Hs Hown) as (C & O & F).
  unfold fired_and_gone. rewrite C, F. auto.
Qed.

(** An iteration of either driver ends in the state it started from or in
    the state in which firing a job of the manager ends. *)
Lemma backtrack_iteration_final (limit_dt : option datetime) (w : World) :
  final (BackTrackScheduler.iteration limit_dt w) = w
  \/ exists x, In x (jobs w)
       /\ final (BackTrackScheduler.iteration limit_dt w) = final (fire (Some x) w).
Proof.
  unfold BackTrackScheduler.iteration.
  destruct (get_next_job w) as [[x|]|e] eqn:Hg; cbn [final]; auto.
  - apply get_next_job_In in Hg.
    destruct limit_dt as [l|]; [destruct (next_run x) as [t|]|].
    + destruct (DT.gt t l); cbn [final]; auto.
      right. exists x. split; [exact Hg|]. now destruct (fire (Some x) w).
    + cbn [final]. auto.
    + right. exists x. split; [exact Hg|]. now destruct (fire (Some x) w).
  - left. now destruct limit_dt.
Qed.

Lemma live_iteration_final (w : World) :
  final (LiveScheduler.iteration w) = w
  \/ exists x, In x (jobs w)
       /\ final (LiveScheduler.iteration w) = final (fire (Some x) w).
Proof.
  unfold LiveScheduler.iteration.
  destruct (get_next_job w) as [[x|]|e] eqn:Hg; cbn [final]; auto.
  apply get_next_job_In in Hg.
  destruct (next_run x) as [t|]; cbn [final]; auto.
  destruct (DT.le t (now w)); cbn [final]; eauto.
Qed.

Lemma backtrack_run_gone (c : nat) (j : Job) (limit_dt : option datetime)
  (fuel : nat) (w : World) :
  fired_and_gone c j w ->
  fired_and_gone c j (final (BackTrackScheduler.gen_events fuel limit_dt w)).
Proof.
  revert w. induction fuel as [|fuel IH]; intros w Hw; [exact Hw|].
  cbn [BackTrackScheduler.gen_events].
  assert (fired_and_gone c j (final (BackTrackScheduler.iteration limit_dt w))) as H.
  { destruct (backtrack_iteration_final limit_dt w) as [->|(x & Hin & ->)]; auto.
    now apply fire_step_gone. }
  destruct (BackTrackScheduler.iteration limit_dt w) as [[] w'|e w'|w'];
    cbn [final] in *; auto.
Qed.

Lemma backtrack_run_waiting (c : nat) (j : Job) (limit_dt : option datetime)
  (fuel : nat) (w : World) :
  unit j = Some Once -> waiting c j w ->
  waiting c j (final (BackTrackScheduler.gen_events fuel limit_dt w))
  \/ fired_and_gone c j (final (BackTrackScheduler.gen_events fuel limit_dt w)).
Proof.
  intros Hu. revert w. induction fuel as [|fuel IH]; intros w Hw; [now left|].
  cbn [BackTrackScheduler.gen_events].
  assert (waiting c j (final (BackTrackScheduler.iteration limit_dt w))
          \/ fired_and_gone c j (final (BackTrackScheduler.iteration limit_dt w)))
    as H.
  { destruct (backtrack_iteration_final limit_dt w) as [->|(x & Hin & ->)]; auto.
    now apply fire_step_waiting. }
  destruct (BackTrackScheduler.iteration limit_dt w) as [[] w'|e w'|w'];
    cbn [final] in *; auto.
  destruct H as [H|H]; [auto|right; now apply backtrack_run_gone].
Qed.

Lemma set_now_jobs_queue (t : datetime) (w : World) :
  jobs (set_now t w) = jobs w /\ queue (set_now t w) = queue w.
Proof. split; reflexivity. Qed.

Lemma live_run_gone (c : nat) (j : Job) (clock : list datetime) (w : World) :
  fired_and_gone c j w ->
  fired_and_gone c j (final (LiveScheduler.gen_events clock w)).
Proof.
  revert w. induction clock as [|t clock IH]; intros w Hw; [exact Hw|].
  cbn [LiveScheduler.gen_events].
  assert (fired_and_gone c j (final (LiveScheduler.iteration (set_now t w)))) as H.
  { destruct (live_iteration_final (set_now t w)) as [->|(x & Hin & ->)]; auto.
    now apply fire_step_gone. }
  destruct (LiveScheduler.iteration (set_now t w)) as [[] w'|e w'|w'];
    cbn [final] in *; auto.
Qed.

Lemma live_run_waiting (c : nat) (j : Job) (clock : list datetime) (w : World) :
  unit j = Some Once -> waiting c j w ->
  waiting c j (final (LiveScheduler.gen_events clock w))
  \/ fired_and_gone c j (final (LiveScheduler.gen_events clock w)).
Proof.
  intros Hu. revert w. induction clock as [|t clock IH]; intros w Hw; [now left|].
  cbn [LiveScheduler.gen_events].
  assert (waiting c j (final (LiveScheduler.iteration (set_now t w)))
          \/ fired_and_gone c j (final (LiveScheduler.iteration (set_now t w))))
    as H.
  { destruct (live_iteration_final (set_now t w)) as [->|(x & Hin & ->)]; auto.
    now apply fire_step_waiting. }
  destruct (LiveScheduler.iteration (set_now t w)) as [[] w'|e w'|w'];
    cbn [final] in *; auto.
  destruct H as [H|H]; [auto|right; now apply live_run_gone].
Qed.

Lemma copies_nil_not_In (j : Job) (l : list Job) :
  copies j l = [] -> ~ In j l.
Proof.
  intros Hc Hin.
  assert (In j (copies j l)) as H by (apply filter_In; auto using same_refl).
  rewrite Hc in H. destruct H.
Qed.

(** C8.  Let [j] be a once job that is registered once in the manager and
    whose event name no other job has.  [gen_event] returns its event and
    has itself removed [j] from the manager, so that the removal the driver
    makes after queueing the event changes nothing.  Firing it returns,
    queues exactly its event, and leaves it absent from the manager.  When
    [j] is the job that [get_next_job] selects, the BackTrack driver fires
    it in its next iteration unless it is beyond the horizon, and the Live
    driver fires it at the next poll at which it is due; from then on, over
    the rest of the run, [j] stays absent and the number of its events
    stays one more than at the start.  Over a run of either driver, of any
    length and however it ends, either [j] is still registered and no event
    of [j] has been queued, or [j] is absent and exactly one event of [j]
    has been queued. *)
Theorem once_job_fires_exactly_once (j : Job) (w : World) :
  unit j = Some Once -> copies j (jobs w) = [j] -> own_name j (jobs w) ->
  (exists w1,
     gen_event j w = Returned (event_of j) w1
     /\ ~ In j (jobs w1)
     /\ queue w1 = queue w
     /\ cancel j (put_event (event_of j) w1) = put_event (event_of j) w1)
  /\ (exists w',
     fire (Some j) w = Returned tt w'
     /\ queue w' = queue w ++ [event_of j]
     /\ ~ In j (jobs w')
     /\ cancel j (cancel j w) = cancel j w)
  /\ (forall t limit_dt,
        next_run j = Some t -> get_next_job w = Ok (Some j) ->
        (forall l, limit_dt = Some l -> DT.gt t l = false) ->
        exists w',
          BackTrackScheduler.iteration limit_dt w = Returned false w'
          /\ queue w' = queue w ++ [event_of j]
          /\ ~ In j (jobs w')
          /\ forall fuel,
               let wf := final (BackTrackScheduler.gen_events (S fuel) limit_dt w) in
               ~ In j (jobs wf) /\ fired j (queue wf) = S (fired j (queue w)))
  /\ (forall t c,
        next_run j = Some t -> get_next_job w = Ok (Some j) ->
        DT.le t c = true ->
        exists w',
          LiveScheduler.iteration (set_now c w) = Returned tt w'
          /\ queue w' = queue w ++ [event_of j]
          /\ ~ In j (jobs w')
          /\ forall clock,
               let wf := final (LiveScheduler.gen_events (c :: clock) w) in
               ~ In j (jobs wf) /\ fired j (queue wf) = S (fired j (queue w)))
  /\ (forall fuel limit_dt,
        let wf := final (BackTrackScheduler.gen_events fuel limit_dt w) in
        (copies j (jobs wf) = [j] /\ fired j (queue wf) = fired j (queue w))
        \/ (~ In j (jobs wf) /\ fired j (queue wf) = S (fired j (queue w))))
  /\ (forall clock,
        let wf := final (LiveScheduler.gen_events clock w) in
        (copies j (jobs wf) = [j] /\ fired j (queue wf) = fired j (queue w))
        \/ (~ In j (jobs wf) /\ fired j (queue wf) = S (fired j (queue w)))).
Proof.
  intros Hu Hc Hown.
  assert (waiting (fired j (queue w)) j w) as Hw by (unfold waiting; auto).
  split; [|split; [|split; [|split; [|split]]]].
  - destruct (copies_remove_self j _ Hc) as (l' & Hr & Hl').
    assert (cancel j w = set_jobs l' w) as Hcw by (unfold cancel; now rewrite Hr).
    exists (cancel j w). unfold gen_event. rewrite Hu. split; [reflexivity|].
    rewrite Hcw. cbn [jobs queue set_jobs].
    split; [now apply copies_nil_not_In|]. split; [reflexivity|].
    apply cancel_absent. exact Hl'.
  - destruct (fire_self j w Hu Hc Hown) as (w' & Hf & Hq & C & _ & _ & Hcc).
    exists w'. auto using copies_nil_not_In.
  - intros t limit_dt Ht Hg Hl.
    destruct (fire_self j w Hu Hc Hown) as (w' & Hf & Hq & C & O & F & _).
    assert (BackTrackScheduler.iteration limit_dt w = Returned false w') as Hit.
    { unfold BackTrackScheduler.iteration. rewrite Hg.
      destruct limit_dt as [l|]; [rewrite Ht, (Hl l eq_refl)|]; now rewrite Hf. }
    exists w'. split; [exact Hit|]. split; [exact Hq|].
    split; [now apply copies_nil_not_In|].
    intros fuel wf. subst wf. cbn [BackTrackScheduler.gen_events]. rewrite Hit.
    destruct (backtrack_run_gone (fired j (queue w)) j limit_dt fuel w')
      as (C' & _ & F'); [unfold fired_and_gone; auto|].
    auto using copies_nil_not_In.
  - intros t c Ht Hg Hle.
    destruct (fire_self j (set_now c w) Hu Hc Hown)
      as (w' & Hf & Hq & C & O & F & _).
    cbn [queue set_now] in Hq, F.
    assert (LiveScheduler.iteration (set_now c w) = Returned tt w') as Hit.
    { unfold LiveScheduler.iteration.
      change (get_next_job (set_now c w)) with (get_next_job w).
      rewrite Hg, Ht. cbn [now set_now]. now rewrite Hle. }
    exists w'. split; [exact Hit|]. split; [exact Hq|].
    split; [now apply copies_nil_not_In|].
    intros clock wf. subst wf. cbn [LiveScheduler.gen_events]. rewrite Hit.
    destruct (live_run_gone (fired j (queue w)) j clock w')
      as (C' & _ & F'); [unfold fired_and_gone; auto|].
    auto using copies_nil_not_In.
  - intros fuel limit_dt wf. subst wf.
    destruct (backtrack_run_waiting _ j limit_dt fuel w Hu Hw)
      as [(C & _ & F)|(C & _ & F)]; auto using copies_nil_not_In.
  - intros clock wf. subst wf.
    destruct (live_run_waiting _ j clock w Hu Hw)
      as [(C & _ & F)|(C & _ & F)]; auto using copies_nil_not_In.
Qed.

Lemma once_job_fires_exactly_once_witness :
  let j := once_job 0 "Job1" T1 in
  let w := drain_world in
  (next_run j = Some T1 /\ get_next_job w = Ok (Some j))
  /\ (exists w1,
     gen_event j w = Returned (event_of j) w1
     /\ ~ In j (jobs w1)
     /\ queue w1 = queue w
     /\ cancel j (put_event (event_of j) w1) = put_event (event_of j) w1)
  /\ (exists w',
     fire (Some j) w = Returned tt w'
     /\ queue w' = queue w ++ [event_of j]
     /\ ~ In j (jobs w')
     /\ cancel j (cancel j w) = cancel j w)
  /\ (forall t limit_dt,
        next_run j = Some t -> get_next_job w = Ok (Some j) ->
        (forall l, limit_dt = Some l -> DT.gt t l = false) ->
        exists w',
          BackTrackScheduler.iteration limit_dt w = Returned false w'
          /\ queue w' = queue w ++ [event_of j]
          /\ ~ In j (jobs w')
          /\ forall fuel,
               let wf := final (BackTrackScheduler.gen_events (S fuel) limit_dt w) in
               ~ In j (jobs wf) /\ fired j (queue wf) = S (fired j (queue w)))
  /\ (forall t c,
        next_run j = Some t -> get_next_job w = Ok (Some j) ->
        DT.le t c = true ->
        exists w',
          LiveScheduler.iteration (set_now c w) = Returned tt w'
          /\ queue w' = queue w ++ [event_of j]
          /\ ~ In j (jobs w')
          /\ forall clock,
               let wf := final (LiveScheduler.gen_events (c :: clock) w) in
               ~ In j (jobs wf) /\ fired j (queue wf) = S (fired j (queue w)))
  /\ (forall fuel limit_dt,
        let wf := final (BackTrackScheduler.gen_events fuel limit_dt w) in
        (copies j (jobs wf) = [j] /\ fired j (queue wf) = fired j (queue w))
        \/ (~ In j (jobs wf) /\ fired j (queue wf) = S (fired j (queue w))))
  /\ (forall clock,
        let wf := final (LiveScheduler.gen_events clock w) in
        (copies j (jobs wf) = [j] /\ fired j (queue wf) = fired j (queue w))
        \/ (~ In j (jobs wf) /\ fired j (queue wf) = S (fired j (queue w)))).
Proof.
  split; [split; reflexivity|].
  apply (once_job_fires_exactly_once (once_job 0 "Job1" T1) drain_world).
  - reflexivity.
  - reflexivity.
  - unfold own_name, drain_world, world_of. cbn [jobs].
    repeat constructor; vm_compute; intros; discriminate.
Defined.

(** * Further properties of the manager and of the jobs *)

(** ** [cancel] and [clear] *)

Lemma copies_split (j : Job) (l : list Job) :
  copies j l = [j] ->
  exists l1 l2,
    l = l1 ++ j :: l2 /\ list_remove j l = Ok (l1 ++ l2)
    /\ copies j (l1 ++ l2) = [].
Proof.
  induction l as [|y l IH]; cbn [copies List.filter list_remove]; [discriminate|].
  destruct (same y j) eqn:E.
  - intros [= -> Hl]. exists [], l. auto.
  - intros (l1 & l2 & -> & -> & Hc)%IH. exists (y :: l1), l2.
    repeat split; auto. cbn [app copies List.filter]. now rewrite E.
Qed.

(** X1.  Cancelling a job that is registered once removes that entry and
    keeps the other jobs in their order; the job cannot be selected any
    more, a second [cancel] changes nothing, and neither the clock, the
    queue nor the generator is touched. *)
Theorem cancel_removes_registered_job (j : Job) (w : World) :
  copies j (jobs w) = [j] ->
  exists l1 l2,
    jobs w = l1 ++ j :: l2
    /\ cancel j w = set_jobs (l1 ++ l2) w
    /\ ~ In j (l1 ++ l2)
    /\ (forall x, get_next_job (cancel j w) = Ok (Some x) -> same x j = false)
    /\ cancel j (cancel j w) = cancel j w.
Proof.
  intros (l1 & l2 & Hl & Hr & Hc)%copies_split.
  exists l1, l2.
  assert (cancel j w = set_jobs (l1 ++ l2) w) as Hcw
    by (unfold cancel; now rewrite Hr).
  rewrite Hcw. repeat split; auto using copies_nil_not_In.
  - intros x Hx%get_next_job_In. cbn [jobs set_jobs] in Hx.
    destruct (same x j) eqn:E; [|reflexivity].
    assert (In x (copies j (l1 ++ l2))) as H by (apply filter_In; auto).
    rewrite Hc in H. destruct H.
  - now apply cancel_absent.
Qed.

Lemma cancel_removes_registered_job_witness :
  exists l1 l2,
    jobs drain_world = l1 ++ once_job 0 "Job1" T1 :: l2
    /\ cancel (once_job 0 "Job1" T1) drain_world = set_jobs (l1 ++ l2) drain_world
    /\ ~ In (once_job 0 "Job1" T1) (l1 ++ l2)
    /\ (forall x,
          get_next_job (cancel (once_job 0 "Job1" T1) drain_world) = Ok (Some x) ->
          same x (once_job 0 "Job1" T1) = false)
    /\ cancel (once_job 0 "Job1" T1) (cancel (once_job 0 "Job1" T1) drain_world)
       = cancel (once_job 0 "Job1" T1) drain_world.
Proof.
  apply (cancel_removes_registered_job (once_job 0 "Job1" T1) drain_world).
  reflexivity.
Defined.

(** X2.  [clear] with a tag keeps exactly the jobs whose tag set does not
    hold the tag, in their order; a job selected afterwards does not have
    the tag, and clearing again changes nothing.  [clear] without a tag
    and [cancel_all_jobs] leave a manager from which nothing is selected. *)
Theorem clear_removes_exactly_tagged (t : string) (w : World) :
  (forall x, In x (jobs (clear (Some t) w)) <-> In x (jobs w) /\ t ∉ tags x)
  /\ (forall x, get_next_job (clear (Some t) w) = Ok (Some x) ->
                In x (jobs w) /\ t ∉ tags x)
  /\ clear (Some t) (clear (Some t) w) = clear (Some t) w
  /\ get_next_job (clear None w) = Ok None
  /\ get_next_job (cancel_all_jobs w) = Ok None.
Proof.
  assert (forall x, In x (jobs (clear (Some t) w)) <-> In x (jobs w) /\ t ∉ tags x)
    as Hin.
  { intros x. unfold clear. cbn [jobs set_jobs]. rewrite filter_In.
    rewrite negb_true_iff, bool_decide_eq_false. tauto. }
  split; [exact Hin|]. split; [|split; [|split; reflexivity]].
  - intros x Hx. now apply Hin, get_next_job_In.
  - unfold clear, set_jobs. cbn [jobs now queue subscribed rand]. f_equal.
    clear Hin. induction (jobs w) as [|y l IH]; cbn [List.filter]; [reflexivity|].
    destruct (negb (bool_decide (t ∈ tags y))) eqn:E; [|exact IH].
    cbn [List.filter]. rewrite E. now f_equal.
Qed.

(** ** [tag] *)

Lemma set_update_keys (ts : list tagarg) (s s' : gset string) :
  set_update s ts = (Ok s', s') ->
  forall t, t ∈ s' <-> t ∈ s \/ In (Key t) ts.
Proof.
  revert s. induction ts as [|a ts IH]; intros s; cbn [set_update].
  - intros [= <-] t. cbn. tauto.
  - destruct a as [k| |]; try discriminate.
    intros H t. rewrite (IH _ H t). cbn [In].
    rewrite elem_of_union, elem_of_singleton.
    split; [intros [[?| ->]|?]|intros [?|[[= ->]|?]]]; auto.
Qed.

Lemma set_update_result (ts : list tagarg) (s : gset string) :
  match set_update s ts with
  | (Ok s1, s2) => s1 = s2 /\ Forall (fun a => exists t, a = Key t) ts
  | (Err _, _) => Exists (fun a => forall t, a <> Key t) ts
  end.
Proof.
  revert s. induction ts as [|a ts IH]; intros s; cbn [set_update]; [auto|].
  destruct a as [k| |]; try (left; intros; discriminate).
  specialize (IH (s ∪ {[k]})).
  destruct (set_update (s ∪ {[k]}) ts) as [[s1|e] s2].
  - destruct IH as [-> IH]. split; [reflexivity|]. constructor; eauto.
  - now right.
Qed.

(** X3.  When [tag] returns, only the tag set of the job has changed, and
    it holds the tags it had before and the tags passed, each once however
    often it was passed. *)
Theorem tag_adds_the_tags (ts : list tagarg) (j j' : Job) :
  tag ts j = Returned tt j' ->
  j' = set_tags (tags j') j
  /\ forall t, t ∈ tags j' <-> t ∈ tags j \/ In (Key t) ts.
Proof.
  unfold tag. destruct (forallb isinstance_Hashable ts); cbn [negb];
    [|discriminate].
  pose proof (set_update_result ts (tags j)) as Hr.
  destruct (set_update (tags j) ts) as [[s1|e] s2] eqn:E; [|discriminate].
  destruct Hr as [-> _]. intros [= <-]. split; [reflexivity|].
  cbn [tags set_tags]. now apply set_update_keys.
Qed.

Lemma tag_adds_the_tags_witness :
  let j := every 0 "Job1" 1 in
  let j' := set_tags (∅ ∪ {["a"]} ∪ {["b"]} ∪ {["a"]}) j in
  j' = set_tags (tags j') j
  /\ forall t, t ∈ tags j' <-> t ∈ tags j \/ In (Key t) [Key "a"; Key "b"; Key "a"].
Proof.
  apply (tag_adds_the_tags [Key "a"; Key "b"; Key "a"] (every 0 "Job1" 1)).
  reflexivity.
Defined.

(** ** [do] and the firing of a periodic job *)

Lemma same_config_refl (a : Job) : same_config a a.
Proof. unfold same_config. tauto. Qed.

Lemma same_config_trans (a b c : Job) :
  same_config a b -> same_config b c -> same_config a c.
Proof. unfold same_config. intuition congruence. Qed.

(** [_schedule_next_run] assigns [next_run] only, however it ends. *)
Lemma schedule_next_run_config (s : JS) :
  same_config (fst s) (fst (final (_schedule_next_run s)))
  /\ last_run (fst (final (_schedule_next_run s))) = last_run (fst s).
Proof.
  destruct s as [x g]. unfold _schedule_next_run, same_config.
  destruct (unit x) as [[]|]; cbn [final fst unit_key];
    try (repeat split; reflexivity);
    (destruct (randint _ _ _) as [[step|e] g']; cbn [final fst];
     [|repeat split; reflexivity];
     destruct (last_run x) eqn:El; cbn [final fst unit_key];
     try solve [repeat split; congruence];
     destruct (RD.add _ _); cbn [final fst]; repeat split;
     cbn [last_run set_next_run]; congruence).
Qed.

Lemma catch_up_config (fuel : nat) (now : datetime) (s : JS) :
  same_config (fst s) (fst (final (catch_up fuel now s))).
Proof.
  revert s. induction fuel as [|fuel IH]; intros [j g]; cbn [catch_up final];
    [apply same_config_refl|].
  destruct (next_run j) as [t|]; [|apply same_config_refl].
  destruct (DT.lt t now); [|apply same_config_refl].
  pose proof (schedule_next_run_config (set_last_run (Some t) j, g)) as [Hc _].
  destruct (_schedule_next_run _) as [[] s1|e s1|s1]; cbn [final fst] in *;
    try exact Hc.
  eapply same_config_trans; [exact Hc|apply IH].
Qed.

Lemma schedule_first_run_config (fuel : nat) (now : datetime) (s : JS) :
  same_config (fst s) (fst (final (_schedule_first_run fuel now s))).
Proof.
  destruct s as [j g]. unfold _schedule_first_run.
  destruct (unit j) as [[]|] eqn:Hu; cbn [final fst];
    try solve [unfold same_config; cbn; repeat split; congruence];
    (destruct (randint _ _ _) as [[step|e] g']; [|apply same_config_refl];
     destruct (rbind _ _) as [t|e]; [|apply same_config_refl];
     apply (catch_up_config fuel now (set_next_run (Some t) j, g'))).
Qed.

Lemma store_absent (j : Job) (l : list Job) :
  copies j l = [] -> store j l = l.
Proof.
  unfold store. induction l as [|y l IH]; cbn [copies List.filter map];
    [reflexivity|].
  destruct (same y j); [discriminate|]. intros ->%IH. reflexivity.
Qed.

(** X4.  When [do] returns for a job that is not yet in the manager, the
    job has a unit and a [next_run], the function is bound, nothing else of
    its configuration has changed, it is the last entry of the manager's
    list after the jobs registered before, its event name has been
    subscribed, and no event has been queued. *)
Theorem do_registers_last
  (fuel : nat) (f : binding) (j j' : Job) (w w' : World) :
  copies j (jobs w) = [] ->
  do fuel f (j, w) = Returned tt (j', w') ->
  same_config (set_event_kwargs (Some f) j) j'
  /\ is_Some (unit j') /\ is_Some (next_run j')
  /\ jobs w' = jobs w ++ [j']
  /\ subscribed w' = subscribed w ++ [event_name j]
  /\ queue w' = queue w.
Proof.
  intros Habs. unfold do.
  destruct (bool_decide (unit j ∈ map Some unit_types)) eqn:Hu; cbn [negb];
    [|discriminate].
  pose proof (schedule_first_run_config fuel (now w)
                (set_event_kwargs (Some f) j, rand w)) as Hc.
  destruct (_schedule_first_run _ _ _) as [[] [j1 g1]|e [j1 g1]|[j1 g1]] eqn:E;
    try discriminate.
  intros [= <- <-]. cbn [final fst] in Hc.
  pose proof Hc as (Ho & Hid & Hun & _).
  cbn [oid job_id unit set_event_kwargs] in Ho, Hid, Hun.
  split; [exact Hc|]. split; [|split; [|split; [|split]]].
  - rewrite <- Hun. apply bool_decide_eq_true in Hu.
    destruct (unit j); [eauto|].
    cbn in Hu. repeat (apply elem_of_cons in Hu as [Hu|Hu]; [discriminate|]).
    now apply elem_of_nil in Hu.
  - eapply first_run_sets_next_run; eauto.
  - cbn [jobs subscribe add_job commit set_jobs set_rand].
    rewrite store_absent; [reflexivity|].
    rewrite <- Habs. unfold copies, same. now rewrite Ho.
  - cbn [subscribed subscribe add_job commit set_jobs set_rand].
    unfold event_name. now rewrite Hid.
  - reflexivity.
Qed.

Lemma do_registers_last_witness :
  let f := mkBinding "timer_call" [] [] in
  let w := world_of (mkdt 2024 1 1 9 0 0 0) [once_job 7 "Job0" T1] in
  let j' := set_next_run (Some (mkdt 2024 1 2 10 0 0 0))
              (set_event_kwargs (Some f) daily_at_ten) in
  same_config (set_event_kwargs (Some f) daily_at_ten) j'
  /\ is_Some (unit j') /\ is_Some (next_run j')
  /\ jobs (subscribe (event_name j') (add_job j' w)) = jobs w ++ [j']
  /\ subscribed (subscribe (event_name j') (add_job j' w))
     = subscribed w ++ [event_name daily_at_ten]
  /\ queue (subscribe (event_name j') (add_job j' w)) = queue w.
Proof.
  apply (do_registers_last 1 (mkBinding "timer_call" [] []) daily_at_ten).
  - reflexivity.
  - vm_compute. reflexivity.
Defined.

(** X5.  Firing a periodic job never removes it: however the call ends,
    the manager's list is the old one with the fired object updated, its
    [last_run] being the instant it was due and nothing of its
    configuration changed.  Its event, dated with that instant, is queued
    exactly when the call returns, that is when the next run could be
    computed. *)
Theorem fire_periodic_keeps_job (x : Job) (w : World) :
  unit x <> Some Once ->
  exists x',
    jobs (final (fire (Some x) w)) = store x' (jobs w)
    /\ same_config x x'
    /\ last_run x' = next_run x
    /\ map oid (jobs (final (fire (Some x) w))) = map oid (jobs w)
    /\ match fire (Some x) w with
       | Returned _ w' =>
           queue w' = queue w ++ [event_of x] /\ dt (event_of x) = next_run x
       | Raised _ w' => queue w' = queue w
       | OutOfFuel w' => queue w' = queue w
       end.
Proof.
  intros Hu. unfold fire, gen_event.
  rewrite (bool_decide_eq_false_2 _ Hu).
  pose proof (schedule_next_run_config (set_last_run (next_run x) x, rand w))
    as [Hc Hl].
  assert (forall x', oid x' = oid x ->
            map oid (store x' (jobs w)) = map oid (jobs w)) as Hm.
  { intros x' Ho. unfold store. rewrite map_map. apply map_ext_in.
    intros y _. unfold same. destruct (Nat.eqb_spec (oid y) (oid x')); congruence. }
  destruct (unit x) as [[]|]; try congruence;
    (destruct (_schedule_next_run _) as [[] [x' g]|e [x' g]|[x' g]];
     cbn [final fst] in *; exists x';
     cbn [jobs queue put_event commit set_jobs set_rand];
     (split; [reflexivity|]); (split; [exact Hc|]); (split; [exact Hl|]);
     (split; [apply Hm; symmetry; apply Hc|]); auto).
Qed.

Lemma fire_periodic_keeps_job_witness :
  let x := set_next_run (Some T1) (seconds (every 0 "Job1" 3)) in
  let w := world_of T1 [x] in
  exists x',
    jobs (final (fire (Some x) w)) = store x' (jobs w)
    /\ same_config x x'
    /\ last_run x' = next_run x
    /\ map oid (jobs (final (fire (Some x) w))) = map oid (jobs w)
    /\ match fire (Some x) w with
       | Returned _ w' =>
           queue w' = queue w ++ [event_of x] /\ dt (event_of x) = next_run x
       | Raised _ w' => queue w' = queue w
       | OutOfFuel w' => queue w' = queue w
       end.
Proof.
  apply (fire_periodic_keeps_job
           (set_next_run (Some T1) (seconds (every 0 "Job1" 3)))
           (world_of T1 [set_next_run (Some T1) (seconds (every 0 "Job1" 3))])).
  cbn. discriminate.
Defined.

(** ** What the drivers queue *)

Lemma cancel_queue (j : Job) (w : World) : queue (cancel j w) = queue w.
Proof. unfold cancel. now destruct (list_remove j (jobs w)). Qed.

(** Firing queues the event of the job or nothing. *)
Lemma fire_queue (x : Job) (w : World) :
  queue (final (fire (Some x) w)) = queue w
  \/ queue (final (fire (Some x) w)) = queue w ++ [event_of x].
Proof.
  destruct (decide (unit x = Some Once)) as [Hu|Hu].
  - right. rewrite (fire_once x w Hu). cbn [final].
    now rewrite cancel_queue, <- (cancel_queue x w).
  - unfold fire, gen_event. rewrite (bool_decide_eq_false_2 _ Hu).
    destruct (unit x) as [[]|]; try congruence;
      destruct (_schedule_next_run _) as [[] [x' g]|e [x' g]|[x' g]];
      cbn [final queue put_event commit set_jobs set_rand]; auto.
Qed.

(** An iteration of the BackTrack driver ends where it started or where
    the firing of the selected job ends, and it fires only a job that is
    not beyond the horizon. *)
Lemma backtrack_iteration_cases (limit_dt : option datetime) (w : World) :
  final (BackTrackScheduler.iteration limit_dt w) = w
  \/ exists x,
       get_next_job w = Ok (Some x)
       /\ (forall l, limit_dt = Some l ->
             exists t, next_run x = Some t /\ DT.gt t l = false)
       /\ final (BackTrackScheduler.iteration limit_dt w) = final (fire (Some x) w).
Proof.
  unfold BackTrackScheduler.iteration.
  destruct (get_next_job w) as [[x|]|e] eqn:Hg; cbn [final]; auto.
  - destruct limit_dt as [l|]; [destruct (next_run x) as [t|] eqn:Ht|].
    + destruct (DT.gt t l) eqn:Hgt; cbn [final]; auto.
      right. exists x. split; [reflexivity|]. split.
      * intros l' [= <-]. eauto.
      * now destruct (fire (Some x) w).
    + cbn [final]. auto.
    + right. exists x. split; [reflexivity|]. split; [discriminate|].
      now destruct (fire (Some x) w).
  - left. now destruct limit_dt.
Qed.

(** The state in which a run of the BackTrack driver ends is the one in
    which its first iteration ends, or the one in which the rest of the
    run ends from there. *)
Lemma backtrack_run_unfold (fuel : nat) (limit_dt : option datetime) (w : World) :
  let w1 := final (BackTrackScheduler.iteration limit_dt w) in
  final (BackTrackScheduler.gen_events (S fuel) limit_dt w) = w1
  \/ final (BackTrackScheduler.gen_events (S fuel) limit_dt w)
     = final (BackTrackScheduler.gen_events fuel limit_dt w1).
Proof.
  cbn [BackTrackScheduler.gen_events].
  destruct (BackTrackScheduler.iteration limit_dt w) as [[] w'|e w'|w'];
    cbn [final]; auto.
Qed.

(** X6.  With a horizon, whatever the jobs are and however the run ends,
    the BackTrack driver only adds to the queue, and every event it adds is
    dated not after the horizon. *)
Theorem backtrack_respects_horizon (fuel : nat) (l : datetime) (w : World) :
  exists evs,
    queue (final (BackTrackScheduler.gen_events fuel (Some l) w)) = queue w ++ evs
    /\ Forall (not_after l) evs.
Proof.
  revert w. induction fuel as [|fuel IH]; intros w.
  - exists []. cbn. now rewrite app_nil_r.
  - assert (exists evs1,
              queue (final (BackTrackScheduler.iteration (Some l) w)) = queue w ++ evs1
              /\ Forall (not_after l) evs1) as (evs1 & Hq1 & He1).
    { destruct (backtrack_iteration_cases (Some l) w) as [->|(x & _ & Hl & ->)].
      - exists []. now rewrite app_nil_r.
      - destruct (Hl l eq_refl) as (t & Ht & Hgt).
        destruct (fire_queue x w) as [->| ->].
        + exists []. now rewrite app_nil_r.
        + exists [event_of x]. split; [reflexivity|].
          repeat constructor. exists t. split; [exact Ht|].
          unfold DT.le, DT.gt in *. now destruct (DT.compare t l). }
    destruct (backtrack_run_unfold fuel (Some l) w) as [-> | ->]; cbn zeta.
    + eauto.
    + destruct (IH (final (BackTrackScheduler.iteration (Some l) w)))
        as (evs2 & -> & He2).
      exists (evs1 ++ evs2). rewrite Hq1, app_assoc. split; [reflexivity|].
      apply Forall_app. auto.
Qed.

(** X7.  However a run of the Live driver ends, it only adds to the queue,
    and every event it adds was due at one of the polls: its instant is not
    after a reading of the clock. *)
Theorem live_fires_only_due (clock : list datetime) (w : World) :
  exists evs,
    queue (final (LiveScheduler.gen_events clock w)) = queue w ++ evs
    /\ Forall (fun e => exists c, In c clock /\ not_after c e) evs.
Proof.
  revert w. induction clock as [|c clock IH]; intros w.
  - exists []. cbn. now rewrite app_nil_r.
  - assert (exists evs1,
              queue (final (LiveScheduler.iteration (set_now c w))) = queue w ++ evs1
              /\ Forall (not_after c) evs1) as (evs1 & Hq1 & He1).
    { unfold LiveScheduler.iteration.
      destruct (get_next_job (set_now c w)) as [[x|]|e]; cbn [final];
        try (exists []; cbn; now rewrite app_nil_r).
      destruct (next_run x) as [t|] eqn:Ht; cbn [final];
        try (exists []; cbn; now rewrite app_nil_r).
      destruct (DT.le t (now (set_now c w))) eqn:Hle; cbn [final];
        try (exists []; cbn; now rewrite app_nil_r).
      destruct (fire_queue x (set_now c w)) as [->| ->]; cbn [queue set_now].
      - exists []. now rewrite app_nil_r.
      - exists [event_of x]. split; [reflexivity|].
        repeat constructor. exists t. auto. }
    assert (Forall (fun e => exists c0, In c0 (c :: clock) /\ not_after c0 e) evs1)
      as He1'.
    { eapply Forall_impl; [exact He1|]. intros e He. exists c. cbn. auto. }
    cbn [LiveScheduler.gen_events].
    destruct (LiveScheduler.iteration (set_now c w)) as [[] w'|e w'|w'];
      cbn [final] in *; eauto.
    destruct (IH w') as (evs2 & -> & He2).
    exists (evs1 ++ evs2). rewrite Hq1, app_assoc. split; [reflexivity|].
    apply Forall_app. split; [exact He1'|].
    eapply Forall_impl; [exact He2|].
    intros e (c0 & Hc0 & He). exists c0. cbn. auto.
Qed.

(** X8.  After [stop] the Live driver has nothing to fire: over any run
    that follows, the manager stays empty and the queue is left as it was. *)
Theorem live_after_stop_is_idle (clock : list datetime) (w : World) :
  jobs (final (LiveScheduler.gen_events clock (LiveScheduler.stop w))) = []
  /\ queue (final (LiveScheduler.gen_events clock (LiveScheduler.stop w)))
     = queue w.
Proof.
  unfold LiveScheduler.stop, cancel_all_jobs.
  assert (forall w0, jobs w0 = [] ->
            jobs (final (LiveScheduler.gen_events clock w0)) = []
            /\ queue (final (LiveScheduler.gen_events clock w0)) = queue w0) as H.
  { induction clock as [|c clock IH]; intros w0 Hw0; [auto|].
    cbn [LiveScheduler.gen_events]. unfold LiveScheduler.iteration, get_next_job.
    cbn [jobs set_now]. rewrite Hw0.
    destruct (IH (set_now c w0) Hw0) as [Hj Hq]. auto. }
  apply (H (set_jobs [] w)). reflexivity.
Qed.

(** ** Draining once jobs *)

Lemma list_remove_incl (x : Job) (l l' : list Job) :
  list_remove x l = Ok l' -> forall y, In y l' -> In y l.
Proof.
  revert l'. induction l as [|z l IH]; intros l'; cbn [list_remove];
    [discriminate|].
  destruct (same z x).
  - intros [= <-] y Hy. now right.
  - destruct (list_remove x l) as [r|e]; cbn [rbind]; [|discriminate].
    intros [= <-] y [->|Hy]; [now left|right; eauto].
Qed.

Lemma cancel_incl (x : Job) (w : World) (y : Job) :
  In y (jobs (cancel x w)) -> In y (jobs w).
Proof.
  unfold cancel. destruct (list_remove x (jobs w)) as [l|e] eqn:E; [|auto].
  cbn [jobs set_jobs]. eapply list_remove_incl; eauto.
Qed.

(** In a manager of scheduled jobs the selected job is an earliest one. *)
Lemma get_next_job_earliest (w : World) (x : Job) :
  scheduled (jobs w) -> get_next_job w = Ok (Some x) ->
  exists t,
    next_run x = Some t
    /\ forall y ty, In y (jobs w) -> next_run y = Some ty -> DT.lt ty t = false.
Proof.
  unfold get_next_job. destruct (jobs w) as [|z l] eqn:Hj; [discriminate|].
  intros Hs. inversion Hs as [|? ? [tz Hz] Hs']; subst.
  destruct (min_from_first_earliest l [z] z 0 tz) as (j & i & t & Hm & _ & Ht & Hfe);
    auto.
  { split; intros k y ty Hk Hy.
    - destruct k; [|discriminate]. injection Hk as <-.
      assert (ty = tz) as -> by congruence. apply dt_lt_irrefl.
    - lia. }
  cbn [py_min]. rewrite Hm. cbn [rbind]. intros [= <-].
  exists t. split; [exact Ht|]. intros y ty Hy Hty.
  apply list_elem_of_In, list_elem_of_lookup in Hy as [k Hk].
  destruct Hfe as [Hmin _]. eapply Hmin; eauto.
Qed.

Lemma get_next_job_nonempty (w : World) :
  scheduled (jobs w) -> jobs w <> [] -> exists x, get_next_job w = Ok (Some x).
Proof.
  unfold get_next_job. destruct (jobs w) as [|z l] eqn:Hj; [congruence|].
  intros Hs _. inversion Hs as [|? ? [tz Hz] Hs']; subst.
  destruct (min_from_first_earliest l [z] z 0 tz) as (j & i & t & Hm & _);
    auto.
  { split; intros k y ty Hk Hy.
    - destruct k; [|discriminate]. injection Hk as <-.
      assert (ty = tz) as -> by congruence. apply dt_lt_irrefl.
    - lia. }
  exists j. cbn [py_min]. now rewrite Hm.
Qed.

Lemma Forall_In_jobs (P : Job -> Prop) (l : list Job) (y : Job) :
  Forall P l -> In y l -> P y.
Proof.
  intros H Hin. induction H as [|z l Hz Hl IH]; [destruct Hin|].
  destruct Hin as [<-|Hin]; auto.
Qed.

Lemma Forall_incl_jobs (P : Job -> Prop) (l l' : list Job) :
  (forall y, In y l' -> In y l) -> Forall P l -> Forall P l'.
Proof.
  intros Hincl H. induction l' as [|z l' IH]; constructor.
  - eapply Forall_In_jobs; [exact H|]. apply Hincl. now left.
  - apply IH. intros y Hy. apply Hincl. now right.
Qed.

Lemma once_drain_chronological
  (fuel : nat) (limit_dt : option datetime) (w : World) :
  Forall (fun x => unit x = Some Once) (jobs w) -> scheduled (jobs w) ->
  exists evs,
    queue (final (BackTrackScheduler.gen_events fuel limit_dt w)) = queue w ++ evs
    /\ Forall (fun e => exists y, In y (jobs w) /\ dt e = next_run y) evs
    /\ chronological evs.
Proof.
  revert w. induction fuel as [|fuel IH]; intros w Honce Hs.
  { exists []. cbn. rewrite app_nil_r. auto. }
  destruct (backtrack_iteration_cases limit_dt w) as [Hw|(x & Hg & _ & Hw)];
    destruct (backtrack_run_unfold fuel limit_dt w) as [Hr|Hr];
    cbn zeta in Hr; rewrite Hr, Hw; clear Hr Hw.
  - exists []. cbn. rewrite app_nil_r. auto.
  - apply IH; auto.
  - pose proof (get_next_job_In _ _ Hg) as Hin.
    pose proof (Forall_In_jobs _ _ _ Honce Hin) as Hu. cbn beta in Hu.
    rewrite (fire_once x w Hu). cbn [final].
    rewrite cancel_queue. cbn [queue put_event]. rewrite cancel_queue.
    destruct (get_next_job_earliest w x Hs Hg) as (t & Ht & _).
    exists [event_of x]. split; [reflexivity|]. split.
    + repeat constructor. exists x. auto.
    + cbn [chronological event_of dt]. rewrite Ht. auto.
  - pose proof (get_next_job_In _ _ Hg) as Hin.
    pose proof (Forall_In_jobs _ _ _ Honce Hin) as Hu. cbn beta in Hu.
    rewrite (fire_once x w Hu). cbn [final].
    set (w1 := cancel x (put_event (event_of x) (cancel x w))).
    assert (forall y, In y (jobs w1) -> In y (jobs w)) as Hincl.
    { intros y Hy. subst w1. apply cancel_incl in Hy. cbn [jobs put_event] in Hy.
      now apply cancel_incl in Hy. }
    assert (queue w1 = queue w ++ [event_of x]) as Hq1.
    { subst w1. rewrite cancel_queue. cbn [queue put_event].
      now rewrite cancel_queue. }
    destruct (IH w1) as (evs & -> & Hsrc & Hchr).
    { eapply Forall_incl_jobs; eauto. }
    { eapply Forall_incl_jobs; eauto. }
    destruct (get_next_job_earliest w x Hs Hg) as (t & Ht & Hmin).
    exists (event_of x :: evs). rewrite Hq1, <- app_assoc.
    split; [reflexivity|]. split.
    + constructor; [exists x; auto|].
      eapply Forall_impl; [exact Hsrc|].
      intros e (y & Hy & He). exists y. auto.
    + cbn [chronological event_of dt]. rewrite Ht. split; [|exact Hchr].
      eapply Forall_impl; [exact Hsrc|].
      intros e (y & Hy & He). apply Hincl in Hy.
      destruct (Forall_In_jobs _ _ _ Hs Hy) as [ty Hty].
      exists ty. split; [congruence|]. eapply Hmin; eauto.
Qed.

(** X9.  When every job of the manager is a scheduled once job, the events
    that a run of the BackTrack driver adds to the queue are in
    chronological order, whatever the registration order, the horizon and
    the length of the run. *)
Theorem backtrack_once_jobs_chronological
  (fuel : nat) (limit_dt : option datetime) (w : World) :
  Forall (fun x => unit x = Some Once) (jobs w) -> scheduled (jobs w) ->
  exists evs,
    queue (final (BackTrackScheduler.gen_events fuel limit_dt w)) = queue w ++ evs
    /\ chronological evs.
Proof.
  intros Honce Hs.
  destruct (once_drain_chronological fuel limit_dt w Honce Hs)
    as (evs & Hq & _ & Hc).
  eauto.
Qed.

Lemma backtrack_once_jobs_chronological_witness :
  exists evs,
    queue (final (BackTrackScheduler.gen_events 5 None drain_world))
    = queue drain_world ++ evs
    /\ chronological evs.
Proof.
  apply (backtrack_once_jobs_chronological 5 None drain_world).
  - repeat constructor.
  - repeat constructor; eexists; reflexivity.
Defined.

Lemma NoDup_copies (x : Job) (l : list Job) :
  NoDup (map oid l) -> In x l -> copies x l = [x].
Proof.
  assert (forall l', ~ In (oid x) (map oid l') -> copies x l' = []) as Habs.
  { induction l' as [|z l' IH]; cbn [map copies List.filter In]; [reflexivity|].
    intros H. unfold same at 1. destruct (Nat.eqb_spec (oid z) (oid x)); [tauto|].
    apply IH. tauto. }
  induction l as [|y l IH]; intros Hnd Hin; [destruct Hin|].
  apply NoDup_ListNoDup in Hnd. cbn [map] in Hnd.
  inversion Hnd as [|? ? Hnotin Hnd']; subst.
  cbn [copies List.filter]. destruct Hin as [->|Hin].
  - rewrite same_refl. f_equal. now apply Habs.
  - unfold same at 1. destruct (Nat.eqb_spec (oid y) (oid x)) as [E|E].
    + exfalso. apply Hnotin. rewrite E. now apply in_map.
    + apply IH; [|exact Hin]. now apply NoDup_ListNoDup.
Qed.

(** X10.  Without a horizon, a manager whose jobs are scheduled once jobs
    with distinct identities is drained completely: with fuel for one
    iteration more than there are jobs, the BackTrack driver ends with
    [AttributeError] on the [None] that [get_next_job] returns once the
    manager is empty, and what it has added to the queue by then is the
    events of the jobs, one for each job of the manager, in chronological
    order. *)
Theorem backtrack_drains_once_jobs_then_raises (fuel : nat) (w : World) :
  Forall (fun x => unit x = Some Once) (jobs w) -> scheduled (jobs w) ->
  NoDup (map oid (jobs w)) -> (length (jobs w) < fuel)%nat ->
  exists w' evs,
    BackTrackScheduler.gen_events fuel None w = Raised AttributeError w'
    /\ jobs w' = []
    /\ queue w' = queue w ++ evs
    /\ Permutation evs (map event_of (jobs w))
    /\ chronological evs.
Proof.
  intros Honce Hs Hnd Hlen.
  assert (exists w' evs,
            BackTrackScheduler.gen_events fuel None w = Raised AttributeError w'
            /\ jobs w' = []
            /\ queue w' = queue w ++ evs
            /\ Permutation evs (map event_of (jobs w)))
    as (w' & evs & Hrun & Hempty & Hq & Hperm).
  { revert w Honce Hs Hnd Hlen.
    induction fuel as [|fuel IH]; intros w Honce Hs Hnd Hlen; [lia|].
    cbn [BackTrackScheduler.gen_events]. unfold BackTrackScheduler.iteration.
    destruct (jobs w) as [|z l] eqn:Hj.
    { unfold get_next_job. rewrite Hj. cbn. exists w, []. rewrite Hj, app_nil_r.
      repeat split; auto. }
    destruct (get_next_job_nonempty w) as [x Hg]; [congruence|congruence|].
    rewrite Hg. pose proof (get_next_job_In _ _ Hg) as Hin.
    assert (unit x = Some Once) as Hu.
    { rewrite <- Hj in Honce. apply (Forall_In_jobs _ _ _ Honce Hin). }
    rewrite (fire_once x w Hu).
    assert (copies x (jobs w) = [x]) as Hc
      by (apply NoDup_copies; [congruence|exact Hin]).
    destruct (copies_split x _ Hc) as (l1 & l2 & Hl & Hr & Hc').
    assert (cancel x w = set_jobs (l1 ++ l2) w) as ->
      by (unfold cancel; now rewrite Hr).
    rewrite cancel_absent by exact Hc'.
    set (w1 := put_event (event_of x) (set_jobs (l1 ++ l2) w)).
    rewrite <- Hj, Hl in Honce, Hs, Hnd. rewrite Hl in Hj.
    assert (length (z :: l) = S (length (l1 ++ l2))) as Hlen'.
    { rewrite <- Hj, !length_app. cbn. lia. }
    destruct (IH w1) as (w' & evs & Hrun & Hempty & Hq & Hperm).
    - cbn [jobs w1 put_event set_jobs].
      apply Forall_app in Honce as [H1 H2]. apply Forall_cons in H2 as [_ H2].
      apply Forall_app. auto.
    - cbn [jobs w1 put_event set_jobs]. unfold scheduled in *.
      apply Forall_app in Hs as [H1 H2]. apply Forall_cons in H2 as [_ H2].
      apply Forall_app. auto.
    - cbn [jobs w1 put_event set_jobs].
      rewrite map_app in *. cbn [map] in Hnd.
      apply NoDup_ListNoDup. apply NoDup_ListNoDup in Hnd.
      eapply NoDup_remove_1; eauto.
    - cbn [jobs w1 put_event set_jobs]. lia.
    - exists w', (event_of x :: evs). rewrite Hrun. split; [reflexivity|].
      split; [exact Hempty|].
      rewrite Hq. cbn [jobs queue w1 put_event set_jobs] in *.
      split; [now rewrite <- app_assoc|].
      rewrite <- Hj, map_app. cbn [map]. apply Permutation_cons_app.
      now rewrite <- map_app. }
  exists w', evs. repeat (split; [assumption|]).
  destruct (once_drain_chronological fuel None w Honce Hs)
    as (evs' & Hq' & _ & Hchr).
  rewrite Hrun in Hq'. cbn [final] in Hq'. rewrite Hq in Hq'.
  apply app_inv_head in Hq'. now subst evs'.
Qed.

Lemma backtrack_drains_once_jobs_then_raises_witness :
  exists w' evs,
    BackTrackScheduler.gen_events 4 None drain_world = Raised AttributeError w'
    /\ jobs w' = []
    /\ queue w' = queue drain_world ++ evs
    /\ Permutation evs (map event_of (jobs drain_world))
    /\ chronological evs.
Proof.
  apply (backtrack_drains_once_jobs_then_raises 4 drain_world).
  - repeat constructor.
  - repeat constructor; eexists; reflexivity.
  - apply NoDup_ListNoDup. repeat constructor; simpl; intuition lia.
  - simpl. lia.
Defined.

(** * The calendar *)

(** ** Months and years *)

Lemma month_cases (m : Z) :
  1 <= m <= 12 ->
  m = 1 \/ m = 2 \/ m = 3 \/ m = 4 \/ m = 5 \/ m = 6
  \/ m = 7 \/ m = 8 \/ m = 9 \/ m = 10 \/ m = 11 \/ m = 12.
Proof. lia. Qed.

Ltac each_month H :=
  apply month_cases in H;
  repeat (destruct H as [H|H]; [subst|]); [..|subst].

Lemma days_in_month_range (y m : Z) :
  1 <= m <= 12 -> 28 <= DT.days_in_month y m <= 31.
Proof.
  intros H. unfold DT.days_in_month. each_month H;
    destruct (DT.is_leap y); now vm_compute.
Qed.

Lemma days_before_month_succ (y m : Z) :
  1 <= m <= 11 ->
  DT.days_before_month y (m + 1) = DT.days_before_month y m + DT.days_in_month y m.
Proof.
  intros H. assert (1 <= m <= 12) as H' by lia.
  unfold DT.days_before_month, DT.days_in_month. each_month H'; try lia;
    destruct (DT.is_leap y); now vm_compute.
Qed.

Lemma days_before_month_range (y m : Z) :
  1 <= m <= 12 ->
  0 <= DT.days_before_month y m
  /\ DT.days_before_month y m + DT.days_in_month y m
     <= 365 + (if DT.is_leap y then 1 else 0).
Proof.
  intros H. unfold DT.days_before_month, DT.days_in_month. each_month H;
    destruct (DT.is_leap y); now vm_compute.
Qed.

Lemma days_before_month_mono (y m m' : Z) :
  1 <= m -> m < m' -> m' <= 12 ->
  DT.days_before_month y m + DT.days_in_month y m <= DT.days_before_month y m'.
Proof.
  intros H1 H2 H3.
  assert (forall k, (0 <= k)%Z -> m + 1 + k <= 12 ->
            DT.days_before_month y m + DT.days_in_month y m
            <= DT.days_before_month y (m + 1 + k)) as Hk.
  { intros k Hk. pattern k. apply natlike_ind; [| |exact Hk].
    - intros _. rewrite Z.add_0_r, days_before_month_succ by lia. lia.
    - intros x Hx IH Hle.
      replace (m + 1 + Z.succ x) with ((m + 1 + x) + 1) by lia.
      rewrite days_before_month_succ by lia.
      pose proof (days_in_month_range y (m + 1 + x)). lia. }
  replace m' with (m + 1 + (m' - m - 1)) by lia. apply Hk; lia.
Qed.

Lemma is_leap_spec (y : Z) :
  DT.is_leap y = true <-> y mod 4 = 0 /\ (y mod 100 <> 0 \/ y mod 400 = 0).
Proof.
  unfold DT.is_leap.
  rewrite andb_true_iff, orb_true_iff, negb_true_iff, !Z.eqb_eq, Z.eqb_neq.
  tauto.
Qed.

Lemma days_before_year_succ (y : Z) :
  DT.days_before_year (y + 1)
  = DT.days_before_year y + 365 + (if DT.is_leap y then 1 else 0).
Proof.
  unfold DT.days_before_year. cbn zeta.
  replace (y + 1 - 1) with y by lia.
  destruct (DT.is_leap y) eqn:E.
  - apply is_leap_spec in E. Z.div_mod_to_equations. lia.
  - assert (~ (y mod 4 = 0 /\ (y mod 100 <> 0 \/ y mod 400 = 0))) as E'.
    { rewrite <- is_leap_spec. congruence. }
    Z.div_mod_to_equations. lia.
Qed.

Lemma days_before_year_mono (y y' : Z) :
  y <= y' -> DT.days_before_year y + 365 * (y' - y) <= DT.days_before_year y'.
Proof.
  intros H. replace y' with (y + (y' - y)) by lia.
  assert (0 <= y' - y) as Hk by lia. revert Hk. generalize (y' - y) as k.
  intros k Hk. pattern k. apply natlike_ind; [| |exact Hk].
  - rewrite Z.add_0_r. lia.
  - intros x Hx IH. replace (y + Z.succ x) with ((y + x) + 1) by lia.
    rewrite days_before_year_succ. replace (y + x - y) with x in IH by lia.
    destruct (DT.is_leap (y + x)); lia.
Qed.

(** ** Ordinals *)

(** The ordinal of a date lies within the days of its year. *)
Lemma ymd2ord_in_year (y m d : Z) :
  is_date y m d ->
  DT.days_before_year y < DT.ymd2ord y m d <= DT.days_before_year (y + 1).
Proof.
  intros [Hm Hd]. unfold DT.ymd2ord. rewrite days_before_year_succ.
  pose proof (days_before_month_range y m Hm). lia.
Qed.

(** Later dates have larger ordinals. *)
Lemma ymd2ord_mono (y m d y' m' d' : Z) :
  is_date y m d -> is_date y' m' d' ->
  DT.lex_compare [y; m; d] [y'; m'; d'] = Lt ->
  DT.ymd2ord y m d < DT.ymd2ord y' m' d'.
Proof.
  intros Ha Hb. cbn [DT.lex_compare].
  destruct (Z.compare_spec y y') as [->|Hy|Hy]; [|intros _|discriminate].
  - destruct (Z.compare_spec m m') as [->|Hm|Hm]; [|intros _|discriminate].
    + destruct (Z.compare_spec d d'); try discriminate.
      intros _. unfold DT.ymd2ord. lia.
    + destruct Ha as [Hm1 Hd1], Hb as [Hm2 Hd2]. unfold DT.ymd2ord.
      pose proof (days_before_month_mono y' m m'). lia.
  - pose proof (ymd2ord_in_year y m d Ha).
    pose proof (ymd2ord_in_year y' m' d' Hb).
    pose proof (days_before_year_mono (y + 1) y'). lia.
Qed.

Lemma month_day_spec (leapyear : bool) (n : Z) :
  0 <= n <= 364 -> month_day_ok leapyear n = true.
Proof.
  intros Hn.
  assert (forallb (month_day_ok leapyear) (map Z.of_nat (seq 0 365)) = true) as H
    by (destruct leapyear; vm_compute; reflexivity).
  rewrite forallb_forall in H. apply H.
  apply in_map_iff. exists (Z.to_nat n). split; [lia|].
  apply in_seq. lia.
Qed.

Lemma ord2ymd_unfold (n : Z) :
  DT.ord2ymd n =
  let n0 := n - 1 in
  let n400 := n0 / DT.DI400Y in
  let r400 := n0 mod DT.DI400Y in
  let n100 := r400 / DT.DI100Y in
  let r100 := r400 mod DT.DI100Y in
  let n4 := r100 / DT.DI4Y in
  let r4 := r100 mod DT.DI4Y in
  let n1 := r4 / 365 in
  let r1 := r4 mod 365 in
  let y := n400 * 400 + 1 + n100 * 100 + n4 * 4 + n1 in
  if (n1 =? 4) || (n100 =? 4) then (y - 1, 12, 31)
  else
    let '(m, d) :=
      month_day ((n1 =? 3) && (negb (n4 =? 24) || (n100 =? 3))) r1 in
    (y, m, d).
Proof.
  unfold DT.ord2ymd, month_day. cbn zeta.
  destruct ((_ =? 4) || (_ =? 4)); [reflexivity|].
  now destruct (_ <? _).
Qed.

(** [_ord2ymd] yields a date, and it is the date of the ordinal. *)
Lemma ord2ymd_spec (n : Z) :
  let '(y, m, d) := DT.ord2ymd n in
  is_date y m d /\ DT.ymd2ord y m d = n.
Proof.
  rewrite ord2ymd_unfold. cbn zeta.
  unfold DT.DI400Y, DT.DI100Y, DT.DI4Y.
  set (n400 := (n - 1) / 146097). set (r400 := (n - 1) mod 146097).
  set (n100 := r400 / 36524). set (r100 := r400 mod 36524).
  set (n4 := r100 / 1461). set (r4 := r100 mod 1461).
  set (n1 := r4 / 365). set (r1 := r4 mod 365).
  assert (n - 1 = 146097 * n400 + r400 /\ 0 <= r400 < 146097) as [E400 B400]
    by (subst n400 r400; Z.div_mod_to_equations; lia).
  assert (r400 = 36524 * n100 + r100 /\ 0 <= r100 < 36524) as [E100 B100]
    by (subst n100 r100; Z.div_mod_to_equations; lia).
  assert (r100 = 1461 * n4 + r4 /\ 0 <= r4 < 1461) as [E4 B4]
    by (subst n4 r4; Z.div_mod_to_equations; lia).
  assert (r4 = 365 * n1 + r1 /\ 0 <= r1 < 365) as [E1 B1]
    by (subst n1 r1; Z.div_mod_to_equations; lia).
  assert (0 <= n100 <= 4 /\ 0 <= n4 <= 24 /\ 0 <= n1 <= 4) as (R100 & R4 & R1)
    by lia.
  clearbody n400 r400 n100 r100 n4 r4 n1 r1.
  set (y := n400 * 400 + 1 + n100 * 100 + n4 * 4 + n1).
  assert (DT.is_leap (y - 1) = true ->
          is_date (y - 1) 12 31
          /\ DT.days_before_month (y - 1) 12 = 335) as Hlast.
  { intros Hl. unfold is_date, DT.days_in_month, DT.days_before_month.
    rewrite Hl. vm_compute. intuition discriminate. }
  destruct ((n1 =? 4) || (n100 =? 4)) eqn:Hsp.
  - apply orb_true_iff in Hsp. rewrite !Z.eqb_eq in Hsp.
    assert (DT.is_leap (y - 1) = true) as Hl.
    { apply is_leap_spec. subst y. Z.div_mod_to_equations. lia. }
    destruct (Hlast Hl) as [Hd Hb]. split; [exact Hd|].
    unfold DT.ymd2ord. rewrite Hb. unfold DT.days_before_year. cbn zeta.
    subst y. Z.div_mod_to_equations. lia.
  - apply orb_false_iff in Hsp. rewrite !Z.eqb_neq in Hsp.
    assert (DT.is_leap y = (n1 =? 3) && (negb (n4 =? 24) || (n100 =? 3))) as Hl.
    { apply eq_true_iff_eq. rewrite is_leap_spec.
      rewrite andb_true_iff, orb_true_iff, negb_true_iff, !Z.eqb_eq, Z.eqb_neq.
      subst y. Z.div_mod_to_equations. lia. }
    rewrite <- Hl.
    pose proof (month_day_spec (DT.is_leap y) r1 ltac:(lia)) as Hmd.
    unfold month_day_ok in Hmd.
    destruct (month_day (DT.is_leap y) r1) as [m d].
    rewrite !andb_true_iff, !Z.leb_le, Z.eqb_eq in Hmd.
    destruct Hmd as ((((Hm1 & Hm2) & Hd1) & Hd2) & Hsum).
    split; [unfold is_date, DT.days_in_month; lia|].
    unfold DT.ymd2ord, DT.days_before_month.
    set (dbm := nth (Z.to_nat m) DT.DAYS_BEFORE_MONTH 0
                + (if (2 <? m) && DT.is_leap y then 1 else 0)) in *.
    clearbody dbm. unfold DT.days_before_year. cbn zeta.
    subst y. Z.div_mod_to_equations. lia.
Qed.

Lemma ymd2ord_compare (y m d y' m' d' : Z) :
  is_date y m d -> is_date y' m' d' ->
  (DT.ymd2ord y m d ?= DT.ymd2ord y' m' d') = DT.lex_compare [y; m; d] [y'; m'; d'].
Proof.
  intros Ha Hb. destruct (DT.lex_compare [y; m; d] [y'; m'; d']) eqn:E.
  - apply lex_compare_eq in E. injection E as -> -> ->. apply Z.compare_refl.
  - apply Z.compare_lt_iff. now apply ymd2ord_mono.
  - apply Z.compare_gt_iff. apply ymd2ord_mono; auto.
    rewrite (lex_compare_antisym [y; m; d] [y'; m'; d']), E. reflexivity.
Qed.

(** The date that [_ord2ymd] gives for the ordinal of a date is that
    date. *)
Lemma ord2ymd_ymd2ord (y m d : Z) :
  is_date y m d -> DT.ord2ymd (DT.ymd2ord y m d) = (y, m, d).
Proof.
  intros Hd. pose proof (ord2ymd_spec (DT.ymd2ord y m d)) as H.
  destruct (DT.ord2ymd (DT.ymd2ord y m d)) as [[y' m'] d'].
  destruct H as [Hd' Ho].
  pose proof (ymd2ord_compare y' m' d' y m d Hd' Hd) as Hc.
  rewrite Ho, Z.compare_refl in Hc. symmetry in Hc.
  apply lex_compare_eq in Hc. now injection Hc as -> -> ->.
Qed.

Lemma ymd2ord_year_range (y m d : Z) :
  is_date y m d ->
  (1 <= DT.ymd2ord y m d <= DT.MAXORDINAL <-> DT.MINYEAR <= y <= DT.MAXYEAR).
Proof.
  intros Hd. pose proof (ymd2ord_in_year y m d Hd) as Hy.
  unfold DT.MAXORDINAL, DT.MINYEAR, DT.MAXYEAR.
  assert (DT.days_before_year 1 = 0) as H1 by reflexivity.
  assert (DT.days_before_year 10000 = 3652059) as H2 by reflexivity.
  split; intros H.
  - split.
    + destruct (Z.le_gt_cases 1 y) as [|Hlt]; [assumption|].
      pose proof (days_before_year_mono (y + 1) 1). lia.
    + destruct (Z.le_gt_cases y 9999) as [|Hgt]; [assumption|].
      pose proof (days_before_year_mono 10000 y). lia.
  - pose proof (days_before_year_mono 1 y).
    pose proof (days_before_year_mono (y + 1) 10000). lia.
Qed.

(** ** Instants *)

Lemma valid_spec (a : datetime) :
  DT.valid a = true <->
  DT.MINYEAR <= DT.year a <= DT.MAXYEAR
  /\ is_date (DT.year a) (DT.month a) (DT.day a)
  /\ 0 <= DT.hour a <= 23 /\ 0 <= DT.minute a <= 59
  /\ 0 <= DT.second a <= 59 /\ 0 <= DT.microsecond a <= 999999.
Proof.
  unfold DT.valid, DT.in_range, is_date.
  rewrite !andb_true_iff, !Z.leb_le. tauto.
Qed.

(** The microseconds since midnight. *)
Lemma time_of_day_compare (h mi s us h' mi' s' us' : Z) :
  0 <= mi <= 59 -> 0 <= s <= 59 -> 0 <= us <= 999999 ->
  0 <= mi' <= 59 -> 0 <= s' <= 59 -> 0 <= us' <= 999999 ->
  (((h * 60 + mi) * 60 + s) * 1000000 + us
   ?= ((h' * 60 + mi') * 60 + s') * 1000000 + us')
  = DT.lex_compare [h; mi; s; us] [h'; mi'; s'; us'].
Proof.
  intros. cbn [DT.lex_compare].
  destruct (Z.compare_spec h h'); [|apply Z.compare_lt_iff; lia|apply Z.compare_gt_iff; lia].
  destruct (Z.compare_spec mi mi'); [|apply Z.compare_lt_iff; lia|apply Z.compare_gt_iff; lia].
  destruct (Z.compare_spec s s'); [|apply Z.compare_lt_iff; lia|apply Z.compare_gt_iff; lia].
  destruct (Z.compare_spec us us'); [|apply Z.compare_lt_iff; lia|apply Z.compare_gt_iff; lia].
  subst. apply Z.compare_refl.
Qed.

Lemma to_us_split (a : datetime) :
  DT.valid a = true ->
  exists t,
    DT.to_us a = DT.ymd2ord (DT.year a) (DT.month a) (DT.day a) * 86400000000 + t
    /\ t = ((DT.hour a * 60 + DT.minute a) * 60 + DT.second a) * 1000000
           + DT.microsecond a
    /\ 0 <= t < 86400000000.
Proof.
  intros Hv%valid_spec.
  exists (((DT.hour a * 60 + DT.minute a) * 60 + DT.second a) * 1000000
          + DT.microsecond a).
  unfold DT.to_us, DT.US_PER_DAY, DT.US_PER_SECOND. lia.
Qed.

Lemma compare_day_time (oa ta ob tb : Z) :
  0 <= ta < 86400000000 -> 0 <= tb < 86400000000 ->
  (oa * 86400000000 + ta ?= ob * 86400000000 + tb)
  = match oa ?= ob with Eq => ta ?= tb | c => c end.
Proof.
  intros Ha Hb. destruct (Z.compare_spec oa ob) as [E|Hlt|Hgt].
  - subst. apply Z.add_compare_mono_l.
  - apply Z.compare_lt_iff. lia.
  - apply Z.compare_gt_iff. lia.
Qed.

(** On valid instants the order of Python is the order of the
    microsecond counts. *)
Lemma to_us_compare (a b : datetime) :
  DT.valid a = true -> DT.valid b = true ->
  (DT.to_us a ?= DT.to_us b) = DT.compare a b.
Proof.
  intros Ha Hb.
  destruct (to_us_split a Ha) as (ta & -> & Eta & Bta).
  destruct (to_us_split b Hb) as (tb & -> & Etb & Btb).
  apply valid_spec in Ha, Hb.
  destruct Ha as (_ & Hda & _ & Hmi & Hs & Hus).
  destruct Hb as (_ & Hdb & _ & Hmi' & Hs' & Hus').
  pose proof (ymd2ord_compare _ _ _ _ _ _ Hda Hdb) as Hdate.
  pose proof (time_of_day_compare (DT.hour a) _ _ _ (DT.hour b) _ _ _
                Hmi Hs Hus Hmi' Hs' Hus') as Htime.
  rewrite <- Eta, <- Etb in Htime. clear Eta Etb.
  assert (DT.compare a b =
          match DT.lex_compare [DT.year a; DT.month a; DT.day a]
                               [DT.year b; DT.month b; DT.day b] with
          | Eq => DT.lex_compare
                    [DT.hour a; DT.minute a; DT.second a; DT.microsecond a]
                    [DT.hour b; DT.minute b; DT.second b; DT.microsecond b]
          | c => c
          end) as ->.
  { unfold DT.compare, DT.fields. cbn [DT.lex_compare].
    destruct (DT.year a ?= DT.year b); try reflexivity.
    destruct (DT.month a ?= DT.month b); try reflexivity.
    destruct (DT.day a ?= DT.day b); reflexivity. }
  rewrite <- Hdate, <- Htime. now apply compare_day_time.
Qed.

Lemma lt_to_us (a b : datetime) :
  DT.valid a = true -> DT.valid b = true ->
  (DT.lt a b = true <-> DT.to_us a < DT.to_us b).
Proof.
  intros Ha Hb. unfold DT.lt. rewrite <- (to_us_compare a b Ha Hb).
  rewrite <- Z.compare_lt_iff. destruct (DT.to_us a ?= DT.to_us b); easy.
Qed.

Lemma to_us_inj (a b : datetime) :
  DT.valid a = true -> DT.valid b = true -> DT.to_us a = DT.to_us b -> a = b.
Proof.
  intros Ha Hb E. pose proof (to_us_compare a b Ha Hb) as Hc.
  rewrite E, Z.compare_refl in Hc. symmetry in Hc.
  apply lex_compare_eq in Hc. destruct a, b. unfold DT.fields in Hc.
  cbn in Hc. injection Hc as <- <- <- <- <- <- <-. reflexivity.
Qed.

(** [of_us] yields a valid instant with the given count. *)
Lemma of_us_spec (us : Z) (a : datetime) :
  DT.of_us us = Ok a -> DT.valid a = true /\ DT.to_us a = us.
Proof.
  unfold DT.of_us. cbn zeta.
  destruct (DT.in_range 1 (us / DT.US_PER_DAY) DT.MAXORDINAL) eqn:Hr;
    [|discriminate].
  pose proof (ord2ymd_spec (us / DT.US_PER_DAY)) as Ho.
  destruct (DT.ord2ymd (us / DT.US_PER_DAY)) as [[y m] d].
  destruct Ho as [Hd Ho]. intros [= <-].
  unfold DT.in_range in Hr. rewrite andb_true_iff, !Z.leb_le in Hr.
  rewrite <- Ho in Hr. apply (ymd2ord_year_range y m d Hd) in Hr.
  split.
  - apply valid_spec. cbn [DT.year DT.month DT.day DT.hour DT.minute DT.second
                           DT.microsecond].
    split; [exact Hr|]. split; [exact Hd|].
    unfold DT.US_PER_DAY, DT.US_PER_SECOND. Z.div_mod_to_equations. lia.
  - unfold DT.to_us. cbn [DT.year DT.month DT.day DT.hour DT.minute DT.second
                          DT.microsecond].
    rewrite Ho. unfold DT.US_PER_DAY, DT.US_PER_SECOND.
    Z.div_mod_to_equations. lia.
Qed.

Lemma of_us_to_us (a : datetime) :
  DT.valid a = true -> DT.of_us (DT.to_us a) = Ok a.
Proof.
  intros Ha. destruct (DT.of_us (DT.to_us a)) as [b|e] eqn:E.
  - apply of_us_spec in E as [Hb Eb]. f_equal. now apply to_us_inj.
  - exfalso. revert E. unfold DT.of_us. cbn zeta.
    destruct (to_us_split a Ha) as (t & -> & _ & Bt).
    apply valid_spec in Ha. destruct Ha as (Hy & Hd & _).
    apply (ymd2ord_year_range _ _ _ Hd) in Hy.
    set (o := DT.ymd2ord _ _ _) in *. clearbody o.
    assert ((o * 86400000000 + t) / DT.US_PER_DAY = o) as ->.
    { unfold DT.US_PER_DAY, DT.US_PER_SECOND. Z.div_mod_to_equations. lia. }
    unfold DT.in_range.
    destruct (Z.leb_spec 1 o); [|lia]. destruct (Z.leb_spec o DT.MAXORDINAL); [|lia].
    cbn. now destruct (DT.ord2ymd o) as [[? ?] ?].
Qed.

Lemma add_us_spec (a b : datetime) (k : Z) :
  DT.add_us a k = Ok b -> DT.valid b = true /\ DT.to_us b = DT.to_us a + k.
Proof. apply of_us_spec. Qed.

(** [replace] with the fields that the instant has already. *)
Lemma replace_same_date (a : datetime) :
  DT.valid a = true ->
  DT.replace a [(DT.Fyear, DT.year a); (DT.Fmonth, DT.month a); (DT.Fday, DT.day a)]
  = Ok a.
Proof.
  intros Ha. unfold DT.replace. destruct a. cbn. cbn in Ha. now rewrite Ha.
Qed.

(** ** Steps *)

Ltac split_ifs :=
  repeat match goal with
         | |- context [if ?c then _ else _] => destruct c eqn:?
         end.

(** A [relativedelta] of [v] units of fixed length moves neither the year
    nor the month, and amounts to [v] times the length of the unit. *)
Lemma make_fixed (u : Unit) (k : RD.key) (len v : Z) :
  unit_key u = Some k -> unit_us u = Some len ->
  RD.years (RD.make k v) = 0 /\ RD.months (RD.make k v) = 0
  /\ RD.days (RD.make k v) * DT.US_PER_DAY
     + ((RD.hours (RD.make k v) * 60 + RD.minutes (RD.make k v)) * 60
        + RD.seconds (RD.make k v)) * DT.US_PER_SECOND
     = v * len.
Proof.
  unfold DT.US_PER_DAY, DT.US_PER_SECOND.
  destruct u; intros [= <-] [= <-];
    unfold RD.make, RD.fix_, RD.carry, RD.sign, DT.US_PER_DAY, DT.US_PER_SECOND;
    cbn [RD.years RD.months RD.days RD.hours RD.minutes RD.seconds];
    split_ifs;
    cbn [RD.years RD.months RD.days RD.hours RD.minutes RD.seconds];
    (split; [reflexivity || lia|]); (split; [reflexivity || lia|]);
    Z.div_mod_to_equations; lia.
Qed.

Lemma randint_range (a b v : Z) (g g' : rng) :
  randint a b g = (Ok v, g') -> a <= v <= b.
Proof.
  unfold randint. destruct (Z.ltb_spec b a); [discriminate|].
  destruct g as [|r g]; intros [= <- _]; [lia|].
  Z.div_mod_to_equations. lia.
Qed.

Lemma randint_ok (a b : Z) (g : rng) :
  a <= b -> exists v g', randint a b g = (Ok v, g').
Proof.
  intros H. unfold randint. destruct (Z.ltb_spec b a); [lia|].
  destruct g; eauto.
Qed.

(** Adding units of fixed length is adding microseconds. *)
Lemma rd_add_fixed (u : Unit) (k : RD.key) (len v : Z) (a : datetime) :
  DT.valid a = true -> unit_key u = Some k -> unit_us u = Some len ->
  RD.add a (RD.make k v) = DT.of_us (DT.to_us a + v * len).
Proof.
  intros Ha Hk Hl. destruct (make_fixed u k len v Hk Hl) as (Hy & Hm & Ht).
  unfold RD.add. rewrite Hy, Hm, Ht. cbn [Z.eqb]. rewrite Z.add_0_r.
  pose proof Ha as Hv. apply valid_spec in Hv. destruct Hv as (_ & [_ Hd] & _).
  rewrite Z.min_r by lia. rewrite replace_same_date by exact Ha.
  reflexivity.
Qed.

Lemma make_months (v : Z) :
  RD.days (RD.make RD.Kmonths v) = 0 /\ RD.hours (RD.make RD.Kmonths v) = 0
  /\ RD.minutes (RD.make RD.Kmonths v) = 0 /\ RD.seconds (RD.make RD.Kmonths v) = 0
  /\ -11 <= RD.months (RD.make RD.Kmonths v) <= 11
  /\ 12 * RD.years (RD.make RD.Kmonths v) + RD.months (RD.make RD.Kmonths v) = v.
Proof.
  unfold RD.make, RD.fix_, RD.carry, RD.sign.
  cbn [RD.years RD.months RD.days RD.hours RD.minutes RD.seconds Z.abs Z.ltb
       Z.compare].
  split_ifs; cbn [RD.years RD.months RD.days RD.hours RD.minutes RD.seconds];
    repeat (split; [reflexivity|]); Z.div_mod_to_equations; lia.
Qed.

Lemma make_years (v : Z) : RD.make RD.Kyears v = RD.mkrd v 0 0 0 0 0.
Proof. reflexivity. Qed.

(** Adding whole months or years: the month index moves by their number,
    the day is clipped to the length of the month reached, and the time of
    day stays. *)
Lemma rd_add_calendar (a b : datetime) (r : RD.relativedelta) :
  DT.valid a = true ->
  RD.days r = 0 -> RD.hours r = 0 -> RD.minutes r = 0 -> RD.seconds r = 0 ->
  -11 <= RD.months r <= 11 ->
  RD.add a r = Ok b ->
  DT.valid b = true
  /\ month_index b = month_index a + 12 * RD.years r + RD.months r
  /\ DT.day b = Z.min (DT.days_in_month (DT.year b) (DT.month b)) (DT.day a).
Proof.
  intros Ha Hd Hh Hmi Hs Hm. unfold RD.add. rewrite Hd, Hh, Hmi, Hs.
  cbn [Z.mul Z.add]. pose proof Ha as Hv. apply valid_spec in Hv.
  destruct Hv as (_ & [Hmo _] & _).
  set (ym := if RD.months r =? 0 then _ else _).
  assert (1 <= snd ym <= 12
          /\ 12 * fst ym + snd ym
             = month_index a + 12 * RD.years r + RD.months r) as [Hr Hi].
  { subst ym. unfold month_index. split_ifs; cbn [fst snd]; lia. }
  destruct ym as [y m]. cbn [fst snd] in *.
  unfold DT.replace. cbn [fold_left DT.set_field DT.year DT.month DT.day DT.hour
                          DT.minute DT.second DT.microsecond].
  set (b' := mkdt _ _ _ _ _ _ _).
  destruct (DT.valid b') eqn:Hb'; cbn [rbind]; [|discriminate].
  unfold DT.add_us. rewrite Z.add_0_r, of_us_to_us by exact Hb'.
  intros [= <-]. split; [exact Hb'|]. split; [exact Hi|reflexivity].
Qed.

(** A later month index is a later instant. *)
Lemma month_index_lt (a b : datetime) :
  1 <= DT.month a <= 12 -> 1 <= DT.month b <= 12 ->
  month_index a < month_index b -> DT.lt a b = true.
Proof.
  unfold month_index, DT.lt, DT.compare, DT.fields. intros Ha Hb H.
  cbn [DT.lex_compare].
  destruct (Z.compare_spec (DT.year a) (DT.year b)); [|reflexivity|lia].
  destruct (Z.compare_spec (DT.month a) (DT.month b)); [lia|reflexivity|lia].
Qed.

(** [bench_dt] is [bench_of] when that instant exists, and [ValueError]
    otherwise. *)
Lemma bench_dt_eq (j : Job) (now : datetime) :
  bench_dt j now =
  if DT.valid (bench_of (unit j) (offset_dt j) now)
  then Ok (bench_of (unit j) (offset_dt j) now)
  else Err ValueError.
Proof.
  unfold bench_dt, replay_dict, DT.replace, bench_of.
  destruct now as [y mo d h mi s us].
  destruct (DT.year (offset_dt j) <? DT.year (mkdt y mo d h mi s us));
    destruct (unit j) as [[]|]; reflexivity.
Qed.

Lemma unit_us_pos (u : Unit) (len : Z) : unit_us u = Some len -> 0 < len.
Proof.
  destruct u; intros [= <-]; unfold DT.US_PER_DAY, DT.US_PER_SECOND; lia.
Qed.

(** One step or more of any unit leads to a strictly later instant. *)
Lemma rd_add_unit_later (u : Unit) (k : RD.key) (v : Z) (t t' : datetime) :
  unit_key u = Some k -> 1 <= v -> DT.valid t = true ->
  RD.add t (RD.make k v) = Ok t' ->
  DT.valid t' = true /\ DT.lt t t' = true.
Proof.
  intros Hk Hv Ht Hadd.
  destruct (unit_us u) as [len|] eqn:Hlen.
  - rewrite (rd_add_fixed u k len v t Ht Hk Hlen) in Hadd.
    apply of_us_spec in Hadd as [Ht' Hus]. split; [exact Ht'|].
    apply lt_to_us; auto. pose proof (unit_us_pos u len Hlen). nia.
  - assert (DT.valid t' = true
            /\ month_index t' = month_index t + 12 * RD.years (RD.make k v)
                                + RD.months (RD.make k v)
            /\ 1 <= 12 * RD.years (RD.make k v) + RD.months (RD.make k v))
      as (Ht' & Hi & Hpos).
    { destruct u; try discriminate; injection Hk as <-.
      - destruct (make_months v) as (Hd & Hh & Hmi & Hs & Hm & Htot).
        destruct (rd_add_calendar t t' _ Ht Hd Hh Hmi Hs Hm Hadd) as (? & ? & _).
        repeat split; auto; lia.
      - rewrite make_years in *.
        destruct (rd_add_calendar t t' (RD.mkrd v 0 0 0 0 0) Ht
                    eq_refl eq_refl eq_refl eq_refl ltac:(cbn; lia) Hadd)
          as (? & ? & _).
        cbn [RD.years RD.months] in *. repeat split; auto; lia. }
    split; [exact Ht'|].
    apply valid_spec in Ht, Ht'.
    destruct Ht as (_ & [Hm _] & _), Ht' as (_ & [Hm' _] & _).
    apply month_index_lt; auto. lia.
Qed.

Lemma schedule_next_run_returns (j j' : Job) (g g' : rng) (u : Unit) (t : datetime) :
  unit j = Some u -> u <> Once -> last_run j = Some t ->
  _schedule_next_run (j, g) = Returned tt (j', g') ->
  exists step k t',
    randint (min_step j) (max_step j) g = (Ok step, g')
    /\ unit_key u = Some k
    /\ RD.add t (RD.make k step) = Ok t'
    /\ j' = set_next_run (Some t') j.
Proof.
  intros Hu Hne Hl. unfold _schedule_next_run. rewrite Hu, Hl.
  destruct u; try congruence;
    (destruct (randint _ _ _) as [[step|e] g1] eqn:Hr; [|discriminate];
     cbn [unit_key];
     destruct (RD.add _ _) as [t'|e] eqn:Ha; [|discriminate];
     intros [= <- <-]; eauto 10).
Qed.

(** X11.  For a job whose unit has a fixed length (seconds, minutes,
    hours, days, weeks) and whose [last_run] is a valid instant, when
    [_schedule_next_run] returns, [next_run] is a valid instant that lies
    exactly [step] units after [last_run], for a [step] with
    [min_step <= step <= max_step]; [last_run] and the configuration are
    unchanged. *)
Theorem next_run_is_last_run_plus_step
  (j j' : Job) (g g' : rng) (u : Unit) (len : Z) (t : datetime) :
  unit j = Some u -> unit_us u = Some len ->
  last_run j = Some t -> DT.valid t = true ->
  _schedule_next_run (j, g) = Returned tt (j', g') ->
  exists step t',
    min_step j <= step <= max_step j
    /\ next_run j' = Some t' /\ DT.valid t' = true
    /\ DT.to_us t' = DT.to_us t + step * len
    /\ last_run j' = Some t /\ same_config j j'.
Proof.
  intros Hu Hlen Hl Ht Hrun.
  destruct (schedule_next_run_returns j j' g g' u t Hu) as
    (step & k & t' & Hr & Hk & Ha & ->); auto.
  { intros ->. discriminate. }
  rewrite (rd_add_fixed u k len step t Ht Hk Hlen) in Ha.
  apply of_us_spec in Ha as [Ht' Hus].
  exists step, t'. split; [eapply randint_range; eauto|].
  repeat split; auto.
Qed.

Lemma next_run_is_last_run_plus_step_witness :
  let t := mkdt 2024 2 28 23 59 0 0 in
  let j := set_last_run (Some t) (minutes (every 0 "Job1" 3)) in
  exists step t',
    min_step j <= step <= max_step j
    /\ next_run (set_next_run (Some (mkdt 2024 2 29 0 2 0 0)) j) = Some t'
    /\ DT.valid t' = true
    /\ DT.to_us t' = DT.to_us t + step * (60 * DT.US_PER_SECOND)
    /\ last_run (set_next_run (Some (mkdt 2024 2 29 0 2 0 0)) j) = Some t
    /\ same_config j (set_next_run (Some (mkdt 2024 2 29 0 2 0 0)) j).
Proof.
  apply (next_run_is_last_run_plus_step
           (set_last_run (Some (mkdt 2024 2 28 23 59 0 0)) (minutes (every 0 "Job1" 3)))
           _ [] [] Minutes (60 * DT.US_PER_SECOND) (mkdt 2024 2 28 23 59 0 0));
    reflexivity.
Defined.

(** X12.  Firing advances a periodic job: when [gen_event] returns for a
    job of any unit but once whose steps are at least 1 and whose
    [next_run] is a valid instant [t], the event is dated [t], and the job
    object is left with [last_run] equal to [t] and a valid [next_run]
    strictly after [t]. *)
Theorem gen_event_advances_next_run
  (x : Job) (w w' : World) (e : Event) (u : Unit) (t : datetime) :
  unit x = Some u -> u <> Once -> 1 <= min_step x ->
  next_run x = Some t -> DT.valid t = true ->
  gen_event x w = Returned e w' ->
  exists x' t',
    jobs w' = store x' (jobs w)
    /\ same_config x x'
    /\ dt e = Some t /\ last_run x' = Some t
    /\ next_run x' = Some t' /\ DT.valid t' = true /\ DT.lt t t' = true.
Proof.
  intros Hu Hne Hmin Hn Ht. unfold gen_event.
  destruct (_schedule_next_run (set_last_run (next_run x) x, rand w))
    as [[] [x' g']|e' [x' g']|[x' g']] eqn:Hrun;
    destruct u; try congruence; rewrite Hu; try discriminate;
    intros [= <- <-];
    (destruct (schedule_next_run_returns (set_last_run (next_run x) x) x'
                 (rand w) g' _ t Hu) as
        (step & k & t' & Hr & Hk & Ha & ->); [discriminate|exact Hn|exact Hrun|];
     apply randint_range in Hr; cbn [min_step set_last_run] in Hr;
     destruct (rd_add_unit_later _ k step t t' Hk ltac:(lia) Ht Ha) as [Ht' Hlt];
     exists (set_next_run (Some t') (set_last_run (next_run x) x)), t';
     unfold same_config, event_of; cbn; rewrite ?Hn; repeat split; auto).
Qed.

Lemma gen_event_advances_next_run_witness :
  let t := mkdt 2024 1 31 10 0 0 0 in
  let x := set_next_run (Some t) (months (every 0 "Job1" 1)) in
  let w := world_of t [x] in
  let x1 := set_next_run (Some (mkdt 2024 2 29 10 0 0 0)) (set_last_run (Some t) x) in
  exists x' t',
    jobs (commit x1 [] w) = store x' (jobs w)
    /\ same_config x x'
    /\ dt (event_of x) = Some t /\ last_run x' = Some t
    /\ next_run x' = Some t' /\ DT.valid t' = true /\ DT.lt t t' = true.
Proof.
  apply (gen_event_advances_next_run
           (set_next_run (Some (mkdt 2024 1 31 10 0 0 0)) (months (every 0 "Job1" 1)))
           (world_of (mkdt 2024 1 31 10 0 0 0)
              [set_next_run (Some (mkdt 2024 1 31 10 0 0 0)) (months (every 0 "Job1" 1))])
           _ _ Months (mkdt 2024 1 31 10 0 0 0));
    first [reflexivity | discriminate | simpl; lia].
Defined.

(** ** The first run with positive steps *)

Lemma rd_add_err (a : datetime) (r : RD.relativedelta) (e : exn) :
  RD.add a r = Err e -> e = ValueError \/ e = OverflowError.
Proof.
  unfold RD.add.
  destruct (if RD.months r =? 0 then _ else _) as [y m].
  unfold DT.replace. destruct (DT.valid _); cbn [rbind]; [|intros [= <-]; auto].
  unfold DT.add_us, DT.of_us. cbn zeta.
  destruct (DT.in_range _ _ _); [|intros [= <-]; auto].
  now destruct (DT.ord2ymd _) as [[? ?] ?].
Qed.

(** The bench of a unit of fixed length is less than one unit before
    [now]. *)
Lemma bench_gap (u : Unit) (len : Z) (off now : datetime) :
  unit_us u = Some len -> DT.valid now = true ->
  DT.valid (bench_of (Some u) off now) = true ->
  DT.to_us now - DT.to_us (bench_of (Some u) off now) < len.
Proof.
  intros Hlen Hn Hb. apply valid_spec in Hn, Hb.
  destruct u; cbn [unit_us] in Hlen; try discriminate; injection Hlen as <-;
    unfold DT.to_us, bench_of, DT.US_PER_DAY, DT.US_PER_SECOND in *;
    cbn [DT.year DT.month DT.day DT.hour DT.minute DT.second DT.microsecond] in *;
    lia.
Qed.

Lemma first_run_instant_later
  (u : Unit) (step : Z) (off now t : datetime) (delta : RD.relativedelta) :
  u <> Once -> 1 <= step -> DT.valid now = true ->
  DT.valid (bench_of (Some u) off now) = true ->
  offset_delta (Some u) step = Ok delta ->
  RD.add (bench_of (Some u) off now) delta = Ok t ->
  DT.valid t = true /\ DT.lt now t = true.
Proof.
  intros Hne Hstep Hn Hb Hd Ha.
  set (b := bench_of (Some u) off now) in *.
  destruct (unit_us u) as [len|] eqn:Hlen.
  - assert (DT.valid t = true
            /\ exists n, 1 <= n /\ DT.to_us t = DT.to_us b + n * len)
      as (Ht & n & Hn1 & Hus).
    { destruct u; try discriminate; cbn in Hd; injection Hd as <-.
      1-4: (match type of Hlen with
            | unit_us ?u0 = _ =>
                rewrite (rd_add_fixed u0 _ len step b Hb eq_refl Hlen) in Ha
            end;
            apply of_us_spec in Ha as [? ?]; eauto).
      rewrite (rd_add_fixed Days RD.Kdays DT.US_PER_DAY (step * 7) b Hb
                 eq_refl eq_refl) in Ha.
      apply of_us_spec in Ha as [? Hus]. split; [assumption|].
      exists step. split; [assumption|]. injection Hlen as <-. lia. }
    split; [exact Ht|]. apply lt_to_us; auto.
    pose proof (bench_gap u len off now Hlen Hn Hb).
    pose proof (unit_us_pos u len Hlen). fold b in H. nia.
  - assert (DT.valid t = true /\ month_index now < month_index t) as [Ht Hi].
    { pose proof Hb as Hvb. apply valid_spec in Hvb.
      pose proof Hn as Hvn. apply valid_spec in Hvn.
      destruct u; try discriminate; try congruence; cbn in Hd; injection Hd as <-.
      - destruct (make_months step) as (Hd & Hh & Hmi & Hs & Hm & Htot).
        destruct (rd_add_calendar b t _ Hb Hd Hh Hmi Hs Hm Ha) as (? & Hi & _).
        split; [assumption|]. rewrite Hi. subst b.
        unfold month_index, bench_of. cbn [DT.year DT.month]. lia.
      - rewrite make_years in Ha.
        destruct (rd_add_calendar b t (RD.mkrd step 0 0 0 0 0) Hb
                    eq_refl eq_refl eq_refl eq_refl ltac:(cbn; lia) Ha)
          as (? & Hi & _).
        split; [assumption|]. rewrite Hi. subst b.
        unfold month_index, bench_of, is_date in *.
        cbn [DT.year DT.month RD.years RD.months] in *. lia. }
    split; [exact Ht|].
    apply valid_spec in Hn, Ht.
    destruct Hn as (_ & [Hm _] & _), Ht as (_ & [Hm' _] & _).
    now apply month_index_lt.
Qed.

(** X13.  With steps of at least 1 and a valid [now], the catch-up loop of
    [_schedule_first_run] never iterates for a periodic job: with any
    fuel the call does not run out of it; it either raises [ValueError]
    (empty step range, a bench that does not exist, a year out of range) or
    [OverflowError], or it returns with a valid [next_run] strictly after
    [now], [last_run] and the configuration being untouched. *)
Theorem first_run_with_positive_steps
  (fuel : nat) (now : datetime) (j : Job) (g : rng) (u : Unit) :
  unit j = Some u -> u <> Once -> 1 <= min_step j -> DT.valid now = true ->
  match _schedule_first_run (S fuel) now (j, g) with
  | Returned _ (j', _) =>
      exists t,
        j' = set_next_run (Some t) j
        /\ DT.valid t = true /\ DT.lt now t = true
  | Raised e _ => e = ValueError \/ e = OverflowError
  | OutOfFuel _ => False
  end.
Proof.
  intros Hu Hne Hmin Hn. unfold _schedule_first_run. rewrite Hu.
  assert (match
            match randint (min_step j) (max_step j) g with
            | (Err e, g') => Raised e (j, g')
            | (Ok step, g') =>
                match
                  rbind (bench_dt j now) (fun b =>
                  rbind (offset_delta (Some u) step) (fun delta => RD.add b delta))
                with
                | Err e => Raised e (j, g')
                | Ok t => catch_up (S fuel) now (set_next_run (Some t) j, g')
                end
            end
          with
          | Returned _ (j', _) =>
              exists t,
                j' = set_next_run (Some t) j
                /\ DT.valid t = true /\ DT.lt now t = true
          | Raised e _ => e = ValueError \/ e = OverflowError
          | OutOfFuel _ => False
          end) as H.
  { destruct (randint (min_step j) (max_step j) g) as [[step|e] g1] eqn:Hr.
    2: { unfold randint in Hr. destruct (_ <? _); [|destruct g; discriminate].
         injection Hr as <- _. auto. }
    apply randint_range in Hr.
    rewrite bench_dt_eq, Hu.
    destruct (DT.valid (bench_of (Some u) (offset_dt j) now)) eqn:Hb;
      cbn [rbind]; [|auto].
    destruct (offset_delta (Some u) step) as [delta|e] eqn:Hd; cbn [rbind].
    2: { destruct u; try congruence; discriminate. }
    destruct (RD.add _ delta) as [t|e] eqn:Ha; [|eapply rd_add_err; eauto].
    destruct (first_run_instant_later u step (offset_dt j) now t delta)
      as [Ht Hlt]; auto; [lia|].
    cbn [catch_up next_run set_next_run]. rewrite (dt_lt_asym _ _ Hlt).
    exists t. auto. }
  destruct u; try congruence; exact H.
Qed.

Lemma first_run_with_positive_steps_witness :
  match _schedule_first_run 1 (mkdt 2024 1 1 9 0 0 0) (daily_at_ten, []) with
  | Returned _ (j', _) =>
      exists t,
        j' = set_next_run (Some t) daily_at_ten
        /\ DT.valid t = true /\ DT.lt (mkdt 2024 1 1 9 0 0 0) t = true
  | Raised e _ => e = ValueError \/ e = OverflowError
  | OutOfFuel _ => False
  end.
Proof.
  apply (first_run_with_positive_steps 0 (mkdt 2024 1 1 9 0 0 0) daily_at_ten []
           Days); first [reflexivity | discriminate | simpl; lia].
Defined.

(** C1, as amended.  When [_schedule_first_run] returns, the job has a
    [next_run].  For a once job it is the anchor [offset_dt] itself,
    whatever [now] is.  For every other unit it is not before [now]; it is
    strictly after [now] when the step that was drawn is at least 1, so
    whenever [min_step] is at least 1, and [now] is a valid instant; and
    when bench plus step is not before [now], [next_run] is that instant,
    so that in the boundary case, where bench plus step is [now] itself,
    [next_run] is [now] and not an instant after it. *)
Theorem first_run_after_now
  (fuel : nat) (now : datetime) (j j' : Job) (g g' : rng) :
  _schedule_first_run fuel now (j, g) = Returned tt (j', g') ->
  exists t,
    next_run j' = Some t
    /\ (unit j = Some Once -> t = offset_dt j)
    /\ (unit j <> Some Once -> DT.le now t = true)
    /\ (unit j <> Some Once -> DT.valid now = true ->
        forall step g1,
          randint (min_step j) (max_step j) g = (Ok step, g1) ->
          1 <= step -> DT.lt now t = true)
    /\ (unit j <> Some Once -> DT.valid now = true -> 1 <= min_step j ->
        DT.lt now t = true)
    /\ (unit j <> Some Once ->
        forall step g1 b delta t0,
          randint (min_step j) (max_step j) g = (Ok step, g1) ->
          bench_dt j now = Ok b -> offset_delta (unit j) step = Ok delta ->
          RD.add b delta = Ok t0 -> DT.lt t0 now = false ->
          t = t0)
    /\ (unit j <> Some Once ->
        forall step g1 b delta,
          randint (min_step j) (max_step j) g = (Ok step, g1) ->
          bench_dt j now = Ok b -> offset_delta (unit j) step = Ok delta ->
          RD.add b delta = Ok now ->
          t = now /\ DT.lt now t = false).
Proof.
  intros Hrun.
  destruct (decide (unit j = Some Once)) as [Hu|Hu].
  { unfold _schedule_first_run in Hrun. rewrite Hu in Hrun.
    injection Hrun as <- <-. exists (offset_dt j).
    split; [reflexivity|]. split; [reflexivity|].
    repeat split; intros; congruence. }
  assert (exists step g1 t0,
            randint (min_step j) (max_step j) g = (Ok step, g1)
            /\ rbind (bench_dt j now) (fun b =>
               rbind (offset_delta (unit j) step) (fun delta => RD.add b delta))
               = Ok t0
            /\ catch_up fuel now (set_next_run (Some t0) j, g1)
               = Returned tt (j', g'))
    as (step & g1 & t0 & Hr & Hb & Hc).
  { unfold _schedule_first_run in Hrun.
    destruct (unit j) as [[]|]; try congruence;
      (destruct (randint _ _ _) as [[step|e] g1]; [|discriminate];
       destruct (rbind _ _) as [t0|e] eqn:Hb; [|discriminate];
       exists step, g1, t0; split; [reflexivity|split; [exact Hb|exact Hrun]]). }
  destruct (catch_up_returns fuel now _ _ Hc) as (t & Ht & Hlt).
  cbn [fst] in Ht.
  assert (DT.lt t0 now = false -> t = t0) as Hkeep.
  { intros H0. destruct fuel as [|fuel];
      cbn [catch_up next_run set_next_run] in Hc; [discriminate|].
    rewrite H0 in Hc. injection Hc as <- <-. cbn in Ht. congruence. }
  assert (DT.valid now = true ->
          forall step' g1',
            randint (min_step j) (max_step j) g = (Ok step', g1') ->
            1 <= step' -> DT.lt now t = true) as Hstrict.
  { intros Hv step' g1' Hr' Hs. rewrite Hr in Hr'. injection Hr' as <- <-.
    rewrite bench_dt_eq in Hb. destruct (unit j) as [u|] eqn:Eu.
    2: { destruct (DT.valid _); cbn in Hb; discriminate. }
    destruct (DT.valid (bench_of (Some u) (offset_dt j) now)) eqn:Hvb;
      cbn [rbind] in Hb; [|discriminate].
    destruct (offset_delta (Some u) step) as [delta|e] eqn:Hd;
      cbn [rbind] in Hb; [|discriminate].
    destruct (first_run_instant_later u step (offset_dt j) now t0 delta)
      as [_ Hlt0]; auto.
    { intros ->. congruence. }
    rewrite (Hkeep (dt_lt_asym _ _ Hlt0)). exact Hlt0. }
  assert (forall step' g1' b delta t1,
            randint (min_step j) (max_step j) g = (Ok step', g1') ->
            bench_dt j now = Ok b -> offset_delta (unit j) step' = Ok delta ->
            RD.add b delta = Ok t1 -> t1 = t0) as Hfirst.
  { intros step' g1' b delta t1 Hr' Hbd Hod Hadd.
    rewrite Hr in Hr'. injection Hr' as <- <-.
    rewrite Hbd in Hb. cbn [rbind] in Hb. rewrite Hod in Hb. cbn [rbind] in Hb.
    congruence. }
  exists t. split; [exact Ht|]. split; [congruence|].
  split; [intros _; now rewrite dt_le_lt, Hlt|].
  split; [intros _ Hv step' g1' Hr' Hs; eapply Hstrict; eauto|].
  split.
  { intros _ Hv Hmin. apply (Hstrict Hv step g1 Hr).
    apply randint_range in Hr. lia. }
  split.
  - intros _ step' g1' b delta t1 Hr' Hbd Hod Hadd Hlt1.
    rewrite (Hfirst _ _ _ _ _ Hr' Hbd Hod Hadd) in *. now apply Hkeep.
  - intros _ step' g1' b delta Hr' Hbd Hod Hadd.
    pose proof (Hfirst _ _ _ _ _ Hr' Hbd Hod Hadd) as <-.
    rewrite (Hkeep (dt_lt_irrefl now)). split; [reflexivity|apply dt_lt_irrefl].
Qed.

Lemma first_run_after_now_witness :
  let now := mkdt 2024 1 1 9 0 0 0 in
  let j := daily_at_ten in
  let j' := set_next_run (Some (mkdt 2024 1 2 10 0 0 0)) daily_at_ten in
  exists t,
    next_run j' = Some t
    /\ (unit j = Some Once -> t = offset_dt j)
    /\ (unit j <> Some Once -> DT.le now t = true)
    /\ (unit j <> Some Once -> DT.valid now = true ->
        forall step g1,
          randint (min_step j) (max_step j) [] = (Ok step, g1) ->
          1 <= step -> DT.lt now t = true)
    /\ (unit j <> Some Once -> DT.valid now = true -> 1 <= min_step j ->
        DT.lt now t = true)
    /\ (unit j <> Some Once ->
        forall step g1 b delta t0,
          randint (min_step j) (max_step j) [] = (Ok step, g1) ->
          bench_dt j now = Ok b -> offset_delta (unit j) step = Ok delta ->
          RD.add b delta = Ok t0 -> DT.lt t0 now = false ->
          t = t0)
    /\ (unit j <> Some Once ->
        forall step g1 b delta,
          randint (min_step j) (max_step j) [] = (Ok step, g1) ->
          bench_dt j now = Ok b -> offset_delta (unit j) step = Ok delta ->
          RD.add b delta = Ok now ->
          t = now /\ DT.lt now t = false).
Proof.
  apply (first_run_after_now 1 (mkdt 2024 1 1 9 0 0 0) daily_at_ten
           (set_next_run (Some (mkdt 2024 1 2 10 0 0 0)) daily_at_ten) [] []).
  vm_compute. reflexivity.
Defined.

(** X14.  [bench_dt] is [now] with the fields below the unit taken from the
    anchor, as [bench_of] lists them: nothing for seconds and weeks, and
    never the year or the microsecond; it is [ValueError] exactly when that
    instant does not exist. *)
Theorem bench_is_now_with_anchor_fields (j : Job) (now b : datetime) :
  (bench_dt j now = Ok b <->
   b = bench_of (unit j) (offset_dt j) now /\ DT.valid b = true)
  /\ (forall e, bench_dt j now = Err e ->
        e = ValueError
        /\ DT.valid (bench_of (unit j) (offset_dt j) now) = false).
Proof.
  rewrite bench_dt_eq.
  destruct (DT.valid (bench_of (unit j) (offset_dt j) now)) eqn:Hv; split.
  - split; [intros [= <-]; auto|intros [-> _]; reflexivity].
  - discriminate.
  - split; [discriminate|intros [-> Hb]; congruence].
  - intros e [= <-]. auto.
Qed.

(** X15.  A monthly or yearly job whose anchor day does not exist in the
    month of its bench (the current month for months, the anchor's month
    of the current year for years) cannot be registered: [do] raises
    [ValueError] after it has bound the function, and the manager's jobs,
    its queue and its subscriptions are as before. *)
Theorem do_raises_when_anchor_day_is_missing
  (fuel : nat) (f : binding) (j : Job) (w : World) (u : Unit) :
  unit j = Some u -> u = Months \/ u = Years ->
  DT.days_in_month (DT.year (now w))
    (match u with Years => DT.month (offset_dt j) | _ => DT.month (now w) end)
  < DT.day (offset_dt j) ->
  copies j (jobs w) = [] ->
  exists g',
    do fuel f (j, w)
    = Raised ValueError (set_event_kwargs (Some f) j, set_rand g' w).
Proof.
  intros Hu Hmy Hday Habs. unfold do. rewrite Hu.
  rewrite bool_decide_eq_true_2.
  2: { unfold unit_types. cbn [map]. destruct Hmy as [-> | ->]; set_solver. }
  cbn [negb]. unfold _schedule_first_run.
  cbn [unit set_event_kwargs min_step max_step]. rewrite Hu.
  assert (forall g1, commit (set_event_kwargs (Some f) j) g1 w = set_rand g1 w)
    as Hcommit.
  { intros g1. unfold commit. rewrite store_absent; [now destruct w|].
    rewrite <- Habs. reflexivity. }
  assert (bench_dt (set_event_kwargs (Some f) j) (now w) = Err ValueError) as Hb.
  { rewrite bench_dt_eq. cbn [unit offset_dt set_event_kwargs]. rewrite Hu.
    replace (DT.valid _) with false; [reflexivity|]. symmetry.
    apply not_true_is_false. intros Hv%valid_spec.
    destruct Hv as (_ & [_ Hd] & _).
    destruct Hmy as [-> | ->]; cbn [bench_of DT.year DT.month DT.day] in Hd; lia. }
  destruct Hmy as [-> | ->];
    (destruct (randint (min_step j) (max_step j) (rand w)) as [[step|e] g1] eqn:Hr;
     [rewrite Hb; cbn [rbind]; exists g1; now rewrite Hcommit|];
     unfold randint in Hr; destruct (_ <? _); [|destruct (rand w); discriminate];
     injection Hr as <- <-; exists (rand w); now rewrite Hcommit).
Qed.

Lemma do_raises_when_anchor_day_is_missing_witness :
  let j := set_offset_dt (mkdt 2024 1 31 10 0 0 0) (months (every 0 "Job1" 1)) in
  let w := world_of (mkdt 2024 2 10 9 0 0 0) [] in
  exists g',
    do 1 (mkBinding "f" [] []) (j, w)
    = Raised ValueError
        (set_event_kwargs (Some (mkBinding "f" [] [])) j, set_rand g' w).
Proof.
  apply (do_raises_when_anchor_day_is_missing 1 (mkBinding "f" [] [])
           (set_offset_dt (mkdt 2024 1 31 10 0 0 0) (months (every 0 "Job1" 1)))
           (world_of (mkdt 2024 2 10 9 0 0 0) []) Months).
  - reflexivity.
  - now left.
  - vm_compute. reflexivity.
  - reflexivity.
Defined.

(** X16.  For a unit of fixed length, positive steps and a valid [now],
    the first run that [_schedule_first_run] returns is never the bench
    itself: it lies exactly [step] units after the bench, for a [step]
    with [min_step <= step <= max_step] (a week counting as seven days). *)
Theorem first_run_is_bench_plus_step
  (fuel : nat) (now : datetime) (j j' : Job) (g g' : rng) (u : Unit) (len : Z) :
  unit j = Some u -> unit_us u = Some len ->
  1 <= min_step j -> DT.valid now = true ->
  _schedule_first_run (S fuel) now (j, g) = Returned tt (j', g') ->
  exists step t,
    min_step j <= step <= max_step j
    /\ next_run j' = Some t
    /\ DT.valid (bench_of (unit j) (offset_dt j) now) = true
    /\ DT.to_us t
       = DT.to_us (bench_of (unit j) (offset_dt j) now) + step * len.
Proof.
  intros Hu Hlen Hmin Hn. unfold _schedule_first_run. rewrite Hu.
  assert (match randint (min_step j) (max_step j) g with
          | (Err e, g1) => Raised e (j, g1)
          | (Ok step, g1) =>
              match
                rbind (bench_dt j now) (fun b =>
                rbind (offset_delta (Some u) step) (fun delta => RD.add b delta))
              with
              | Err e => Raised e (j, g1)
              | Ok t => catch_up (S fuel) now (set_next_run (Some t) j, g1)
              end
          end = Returned tt (j', g') ->
          exists step t,
            min_step j <= step <= max_step j
            /\ next_run j' = Some t
            /\ DT.valid (bench_of (Some u) (offset_dt j) now) = true
            /\ DT.to_us t
               = DT.to_us (bench_of (Some u) (offset_dt j) now) + step * len)
    as H.
  { destruct (randint (min_step j) (max_step j) g) as [[step|e] g1] eqn:Hr;
      [|discriminate].
    apply randint_range in Hr. rewrite bench_dt_eq, Hu.
    destruct (DT.valid (bench_of (Some u) (offset_dt j) now)) eqn:Hb;
      cbn [rbind]; [|discriminate].
    destruct (offset_delta (Some u) step) as [delta|e] eqn:Hd; cbn [rbind];
      [|discriminate].
    destruct (RD.add _ delta) as [t|e] eqn:Ha; [|discriminate].
    destruct (first_run_instant_later u step (offset_dt j) now t delta)
      as [Ht Hlt]; auto; [intros ->; discriminate|lia|].
    cbn [catch_up next_run set_next_run]. rewrite (dt_lt_asym _ _ Hlt).
    intros [= <- <-]. exists step, t. split; [exact Hr|].
    split; [reflexivity|]. split; [reflexivity|].
    destruct u; try discriminate; cbn in Hd; injection Hd as <-.
    1-4: (match type of Hlen with
          | unit_us ?u0 = _ =>
              rewrite (rd_add_fixed u0 _ len step _ Hb eq_refl Hlen) in Ha
          end; apply of_us_spec in Ha as [_ ->]; reflexivity).
    rewrite (rd_add_fixed Days RD.Kdays DT.US_PER_DAY (step * 7) _ Hb
               eq_refl eq_refl) in Ha.
    apply of_us_spec in Ha as [_ ->]. injection Hlen as <-. lia. }
  destruct u; cbn [unit_us] in Hlen; try discriminate; exact H.
Qed.

Lemma first_run_is_bench_plus_step_witness :
  exists step t,
    min_step daily_at_ten <= step <= max_step daily_at_ten
    /\ next_run (set_next_run (Some (mkdt 2024 1 2 10 0 0 0)) daily_at_ten) = Some t
    /\ DT.valid (bench_of (unit daily_at_ten) (offset_dt daily_at_ten)
                   (mkdt 2024 1 1 11 0 0 0)) = true
    /\ DT.to_us t
       = DT.to_us (bench_of (unit daily_at_ten) (offset_dt daily_at_ten)
                     (mkdt 2024 1 1 11 0 0 0))
         + step * DT.US_PER_DAY.
Proof.
  apply (first_run_is_bench_plus_step 0 (mkdt 2024 1 1 11 0 0 0) daily_at_ten
           _ [] [] Days DT.US_PER_DAY);
    first [reflexivity | simpl; lia].
Defined.

(** ** Idle time *)

Lemma le_to_us (a b : datetime) :
  DT.valid a = true -> DT.valid b = true ->
  (DT.le a b = true <-> DT.to_us a <= DT.to_us b).
Proof.
  intros Ha Hb. unfold DT.le. rewrite <- (to_us_compare a b Ha Hb).
  rewrite <- Z.compare_le_iff. destruct (DT.to_us a ?= DT.to_us b); easy.
Qed.

(** X17.  With at least one job, all of them scheduled, [idle_seconds]
    returns the float of [total_seconds] for the time from [env.now] to the
    [next_run] of the job that [get_next_job] selects; for valid instants
    that float is zero or negative exactly when the job is due, that is
    when the Live driver would fire it. *)
Theorem idle_seconds_is_time_to_next_job (w : World) :
  jobs w <> [] -> scheduled (jobs w) ->
  exists j t,
    get_next_job w = Ok (Some j) /\ next_run j = Some t
    /\ idle_seconds w = Ok (DT.total_seconds (DT.sub t (now w)))
    /\ (DT.valid t = true -> DT.valid (now w) = true ->
        (DT.nonpositive (DT.total_seconds (DT.sub t (now w)))
         <-> DT.le t (now w) = true)).
Proof.
  intros Hne Hs. destruct (get_next_job_nonempty w Hs Hne) as [j Hg].
  destruct (get_next_job_earliest w j Hs Hg) as (t & Ht & _).
  exists j, t. split; [exact Hg|]. split; [exact Ht|]. split.
  - unfold idle_seconds. rewrite Hg. cbn [rbind]. now rewrite Ht.
  - intros Hvt Hvn. rewrite (le_to_us t (now w) Hvt Hvn).
    rewrite total_seconds_nonpositive. unfold DT.sub. lia.
Qed.

Lemma idle_seconds_is_time_to_next_job_witness :
  exists j t,
    get_next_job drain_world = Ok (Some j) /\ next_run j = Some t
    /\ idle_seconds drain_world
       = Ok (DT.total_seconds (DT.sub t (now drain_world)))
    /\ (DT.valid t = true -> DT.valid (now drain_world) = true ->
        (DT.nonpositive (DT.total_seconds (DT.sub t (now drain_world)))
         <-> DT.le t (now drain_world) = true)).
Proof.
  apply (idle_seconds_is_time_to_next_job drain_world).
  - simpl. discriminate.
  - simpl. repeat constructor; eexists; reflexivity.
Defined.

(** ** The order of the events *)

Lemma dt_not_before_trans (lo t t' : datetime) :
  DT.lt t lo = false -> DT.lt t' t = false -> DT.lt t' lo = false.
Proof.
  intros H1 H2. destruct (DT.lt t' lo) eqn:E; [|reflexivity].
  now rewrite (dt_le_lt_trans t t' lo H2 E) in H1.
Qed.

Lemma Forall_store (P : Job -> Prop) (x' : Job) (l : list Job) :
  Forall P l -> P x' -> Forall P (store x' l).
Proof.
  intros H Hx. unfold store. induction H as [|y l Hy Hl IH]; cbn [map];
    constructor; auto.
  now destruct (same y x').
Qed.

(** [_schedule_next_run] does not change the job when it raises, and it
    has no loop. *)
Lemma schedule_next_run_raised (s : JS) :
  match _schedule_next_run s with
  | Returned _ _ => True
  | Raised _ s' => fst s' = fst s
  | OutOfFuel _ => False
  end.
Proof.
  destruct s as [x g]. unfold _schedule_next_run.
  destruct (unit x) as [[]|]; cbn [fst]; auto;
    destruct (randint _ _ _) as [[step|e] g']; cbn [fst unit_key]; auto;
    destruct (last_run x); cbn [fst]; auto;
    destruct (RD.add _ _); cbn [fst]; auto.
Qed.

(** Firing the selected job of a manager of well-formed jobs that are due
    from [lo] on: the job is due at some [t] not before [lo], the jobs left
    are well formed and due from [t] on, and the queue has got the event of
    the job or nothing. *)
Lemma fire_selected_step (w : World) (x : Job) (lo : datetime) :
  Forall (fun y => well_formed y /\ due_from lo y) (jobs w) ->
  get_next_job w = Ok (Some x) ->
  exists t,
    next_run x = Some t /\ DT.lt t lo = false
    /\ Forall (fun y => well_formed y /\ due_from t y)
         (jobs (final (fire (Some x) w)))
    /\ (queue (final (fire (Some x) w)) = queue w
        \/ queue (final (fire (Some x) w)) = queue w ++ [event_of x]).
Proof.
  intros Hinv Hg.
  assert (scheduled (jobs w)) as Hs.
  { unfold scheduled. eapply Forall_impl; [exact Hinv|].
    intros y [[(t & Ht & _) _] _]. now exists t. }
  pose proof (get_next_job_In _ _ Hg) as Hin.
  destruct (get_next_job_earliest w x Hs Hg) as (t & Ht & Hmin).
  destruct (Forall_In_jobs _ _ _ Hinv Hin) as [Hwf (t0 & Ht0 & Hlo)].
  assert (t0 = t) as -> by congruence.
  exists t. split; [exact Ht|]. split; [exact Hlo|]. split; [|apply fire_queue].
  assert (Forall (fun y => well_formed y /\ due_from t y) (jobs w)) as Hinv'.
  { apply List.Forall_forall. intros y Hy.
    destruct (Forall_In_jobs _ _ _ Hinv Hy) as [Hwy (ty & Hty & _)].
    split; [exact Hwy|]. exists ty. split; [exact Hty|]. eapply Hmin; eauto. }
  destruct (decide (unit x = Some Once)) as [Hu|Hu].
  - rewrite (fire_once x w Hu). cbn [final].
    eapply Forall_incl_jobs; [|exact Hinv'].
    intros y Hy. apply cancel_incl in Hy. cbn [jobs put_event] in Hy.
    now apply cancel_incl in Hy.
  - destruct Hwf as [(t1 & Ht1 & Hvt) [Hu'|[[u Hunit] Hstep]]]; [congruence|].
    assert (t1 = t) as -> by congruence.
    assert (u <> Once) as Hne by congruence.
    unfold fire, gen_event. rewrite (bool_decide_eq_false_2 _ Hu).
    pose proof (schedule_next_run_raised (set_last_run (next_run x) x, rand w))
      as Hraised.
    assert (forall x' g',
              (_schedule_next_run (set_last_run (next_run x) x, rand w)
               = Returned tt (x', g')
               \/ x' = set_last_run (next_run x) x) ->
              Forall (fun y => well_formed y /\ due_from t y)
                (jobs (commit x' g' w))) as Hcommit.
    { intros x' g' Hx'. cbn [jobs commit set_jobs set_rand].
      apply Forall_store; [exact Hinv'|].
      destruct Hx' as [Hrun| ->].
      - destruct (schedule_next_run_returns (set_last_run (next_run x) x) x'
                    (rand w) g' u t Hunit Hne Ht Hrun)
          as (step & k & t' & Hr & Hk & Ha & ->).
        apply randint_range in Hr. cbn [min_step set_last_run] in Hr.
        destruct (rd_add_unit_later u k step t t' Hk ltac:(lia) Hvt Ha)
          as [Hvt' Hlt].
        split.
        + split; [exists t'; auto|]. right. cbn. split; [now exists u|exact Hstep].
        + exists t'. split; [reflexivity|]. now apply dt_lt_asym.
      - split.
        + split; [exists t; auto|]. right. cbn. split; [now exists u|exact Hstep].
        + exists t. split; [exact Ht|]. apply dt_lt_irrefl. }
    rewrite Hunit in *.
    destruct u; try congruence;
      (destruct (_schedule_next_run _) as [[] [x' g']|e [x' g']|[x' g']] eqn:Hrun;
       cbn [final fst] in *; [| |contradiction];
       cbn [jobs put_event]; apply Hcommit; auto).
Qed.

Lemma due_from_weaken (lo t : datetime) (l : list Job) :
  DT.lt t lo = false ->
  Forall (fun y => well_formed y /\ due_from t y) l ->
  Forall (fun y => well_formed y /\ due_from lo y) l.
Proof.
  intros Hlo H. eapply Forall_impl; [exact H|].
  intros y [Hwf (ty & Hty & Hlt)]. split; [exact Hwf|].
  exists ty. split; [exact Hty|]. eapply dt_not_before_trans; eauto.
Qed.

Lemma backtrack_run_chronological
  (fuel : nat) (limit_dt : option datetime) (w : World) (lo : datetime) :
  Forall (fun y => well_formed y /\ due_from lo y) (jobs w) ->
  exists evs,
    queue (final (BackTrackScheduler.gen_events fuel limit_dt w)) = queue w ++ evs
    /\ Forall (not_before lo) evs /\ chronological evs
    /\ Forall (fun y => well_formed y /\ due_from lo y)
         (jobs (final (BackTrackScheduler.gen_events fuel limit_dt w))).
Proof.
  revert w lo. induction fuel as [|fuel IH]; intros w lo Hinv.
  { exists []. cbn. rewrite app_nil_r. auto. }
  destruct (backtrack_iteration_cases limit_dt w) as [Hw|(x & Hg & _ & Hw)].
  - destruct (backtrack_run_unfold fuel limit_dt w) as [Hr|Hr];
      cbn zeta in Hr; rewrite Hr, Hw.
    + exists []. cbn. rewrite app_nil_r. auto.
    + now apply IH.
  - destruct (fire_selected_step w x lo Hinv Hg) as (t & Ht & Hlo & Hinv1 & Hq).
    rewrite <- Hw in Hinv1, Hq.
    set (w1 := final (BackTrackScheduler.iteration limit_dt w)) in *.
    assert (exists evs0,
              queue w1 = queue w ++ evs0
              /\ Forall (not_before lo) evs0
              /\ match evs0 with
                 | [] => True
                 | e :: _ => evs0 = [e] /\ dt e = Some t
                 end) as (evs0 & Hq0 & Hlo0 & Hshape).
    { destruct Hq as [Hq|Hq].
      - exists []. rewrite app_nil_r. auto.
      - exists [event_of x]. split; [exact Hq|]. split; [|auto].
        repeat constructor. exists t. auto. }
    destruct (backtrack_run_unfold fuel limit_dt w) as [Hr|Hr];
      cbn zeta in Hr; fold w1 in Hr; rewrite Hr.
    + exists evs0. split; [exact Hq0|]. split; [exact Hlo0|].
      split; [|eapply due_from_weaken; eauto].
      destruct evs0 as [|e evs0]; [exact I|].
      destruct Hshape as [[= ->] He]. cbn [chronological]. now rewrite He.
    + destruct (IH w1 t Hinv1) as (evs1 & -> & Hlo1 & Hchr1 & Hinv2).
      exists (evs0 ++ evs1). rewrite Hq0, app_assoc. split; [reflexivity|].
      assert (Forall (not_before lo) evs1) as Hlo1'.
      { eapply Forall_impl; [exact Hlo1|]. intros e (te & Hte & Hlt).
        exists te. split; [exact Hte|]. eapply dt_not_before_trans; eauto. }
      split; [apply Forall_app; auto|].
      split; [|eapply due_from_weaken; eauto].
      destruct evs0 as [|e evs0]; [exact Hchr1|].
      destruct Hshape as [[= ->] He]. cbn [app chronological]. now rewrite He.
Qed.

Lemma valid_not_before_first (t : datetime) :
  DT.valid t = true -> DT.lt t (mkdt 1 1 1 0 0 0 0) = false.
Proof.
  intros Ht. apply not_true_is_false. intros Hlt.
  apply lt_to_us in Hlt; [|exact Ht|reflexivity].
  destruct (to_us_split t Ht) as (tod & Hus & _ & Htod).
  apply valid_spec in Ht. destruct Ht as (Hy & Hd & _).
  apply (ymd2ord_year_range _ _ _ Hd) in Hy.
  change (DT.to_us (mkdt 1 1 1 0 0 0 0)) with 86400000000 in Hlt. lia.
Qed.

(** X18.  In a manager of well-formed jobs (the [next_run] of each is a
    valid instant; a periodic job has steps of at least 1) the events that
    a run of the BackTrack driver adds to the queue are in chronological
    order, whatever the units, the registration order, the random draws,
    the horizon, the length of the run and the way it ends. *)
Theorem backtrack_events_chronological
  (fuel : nat) (limit_dt : option datetime) (w : World) :
  Forall well_formed (jobs w) ->
  exists evs,
    queue (final (BackTrackScheduler.gen_events fuel limit_dt w)) = queue w ++ evs
    /\ chronological evs.
Proof.
  intros Hwf.
  destruct (backtrack_run_chronological fuel limit_dt w (mkdt 1 1 1 0 0 0 0))
    as (evs & Hq & _ & Hc & _).
  - eapply Forall_impl; [exact Hwf|]. intros y Hy. split; [exact Hy|].
    destruct Hy as [(t & Ht & Hv) _]. exists t.
    split; [exact Ht|]. now apply valid_not_before_first.
  - eauto.
Qed.

Lemma backtrack_events_chronological_witness :
  exists evs,
    queue (final (BackTrackScheduler.gen_events 6 (Some T3) mixed_world))
    = queue mixed_world ++ evs
    /\ chronological evs.
Proof.
  apply (backtrack_events_chronological 6 (Some T3) mixed_world).
  unfold mixed_world, world_of. cbn [jobs].
  apply List.Forall_cons; [|apply List.Forall_cons; [|apply List.Forall_cons]].
  - split; [eexists; split; reflexivity|].
    right. split; [eexists; reflexivity|simpl; lia].
  - split; [eexists; split; reflexivity|]. left. reflexivity.
  - split; [eexists; split; reflexivity|].
    right. split; [eexists; reflexivity|simpl; lia].
  - apply List.Forall_nil.
Defined.

Lemma live_iteration_cases (w : World) :
  final (LiveScheduler.iteration w) = w
  \/ exists x,
       get_next_job w = Ok (Some x)
       /\ final (LiveScheduler.iteration w) = final (fire (Some x) w).
Proof.
  unfold LiveScheduler.iteration.
  destruct (get_next_job w) as [[x|]|e] eqn:Hg; cbn [final]; auto.
  destruct (next_run x) as [t|]; cbn [final]; auto.
  destruct (DT.le t (now w)); cbn [final]; eauto.
Qed.

Lemma live_run_chronological (clock : list datetime) (w : World) (lo : datetime) :
  Forall (fun y => well_formed y /\ due_from lo y) (jobs w) ->
  exists evs,
    queue (final (LiveScheduler.gen_events clock w)) = queue w ++ evs
    /\ Forall (not_before lo) evs /\ chronological evs
    /\ Forall (fun y => well_formed y /\ due_from lo y)
         (jobs (final (LiveScheduler.gen_events clock w))).
Proof.
  revert w lo. induction clock as [|c clock IH]; intros w lo Hinv.
  { exists []. cbn. rewrite app_nil_r. auto. }
  set (w0 := set_now c w).
  assert (Forall (fun y => well_formed y /\ due_from lo y) (jobs w0)) as Hinv0
    by exact Hinv.
  assert (queue w0 = queue w) as Hq00 by reflexivity.
  assert (final (LiveScheduler.gen_events (c :: clock) w)
          = final (LiveScheduler.iteration w0)
          \/ final (LiveScheduler.gen_events (c :: clock) w)
             = final (LiveScheduler.gen_events clock
                        (final (LiveScheduler.iteration w0)))) as Hunfold.
  { cbn [LiveScheduler.gen_events]. fold w0.
    destruct (LiveScheduler.iteration w0) as [[] w'|e w'|w']; cbn [final]; auto. }
  destruct (live_iteration_cases w0) as [Hw|(x & Hg & Hw)].
  - destruct Hunfold as [Hr|Hr]; rewrite Hr, Hw, <- Hq00.
    + exists []. cbn. rewrite app_nil_r. auto.
    + now apply IH.
  - destruct (fire_selected_step w0 x lo Hinv0 Hg) as (t & Ht & Hlo & Hinv1 & Hq).
    rewrite <- Hw in Hinv1, Hq.
    set (w1 := final (LiveScheduler.iteration w0)) in *.
    assert (exists evs0,
              queue w1 = queue w ++ evs0
              /\ Forall (not_before lo) evs0
              /\ match evs0 with
                 | [] => True
                 | e :: _ => evs0 = [e] /\ dt e = Some t
                 end) as (evs0 & Hq0 & Hlo0 & Hshape).
    { rewrite <- Hq00. destruct Hq as [Hq|Hq].
      - exists []. rewrite app_nil_r. auto.
      - exists [event_of x]. split; [exact Hq|]. split; [|auto].
        repeat constructor. exists t. auto. }
    destruct Hunfold as [Hr|Hr]; rewrite Hr.
    + exists evs0. split; [exact Hq0|]. split; [exact Hlo0|].
      split; [|eapply due_from_weaken; eauto].
      destruct evs0 as [|e evs0]; [exact I|].
      destruct Hshape as [[= ->] He]. cbn [chronological]. now rewrite He.
    + destruct (IH w1 t Hinv1) as (evs1 & -> & Hlo1 & Hchr1 & Hinv2).
      exists (evs0 ++ evs1). rewrite Hq0, app_assoc. split; [reflexivity|].
      assert (Forall (not_before lo) evs1) as Hlo1'.
      { eapply Forall_impl; [exact Hlo1|]. intros e (te & Hte & Hlt).
        exists te. split; [exact Hte|]. eapply dt_not_before_trans; eauto. }
      split; [apply Forall_app; auto|].
      split; [|eapply due_from_weaken; eauto].
      destruct evs0 as [|e evs0]; [exact Hchr1|].
      destruct Hshape as [[= ->] He]. cbn [app chronological]. now rewrite He.
Qed.

(** X19.  The same holds for the Live driver: in a manager of well-formed
    jobs the events queued over any sequence of polls are in chronological
    order of their instants, whatever the clock reads at the polls. *)
Theorem live_events_chronological (clock : list datetime) (w : World) :
  Forall well_formed (jobs w) ->
  exists evs,
    queue (final (LiveScheduler.gen_events clock w)) = queue w ++ evs
    /\ chronological evs.
Proof.
  intros Hwf.
  destruct (live_run_chronological clock w (mkdt 1 1 1 0 0 0 0))
    as (evs & Hq & _ & Hc & _).
  - eapply Forall_impl; [exact Hwf|]. intros y Hy. split; [exact Hy|].
    destruct Hy as [(t & Ht & Hv) _]. exists t.
    split; [exact Ht|]. now apply valid_not_before_first.
  - eauto.
Qed.

Lemma live_events_chronological_witness :
  exists evs,
    queue (final (LiveScheduler.gen_events [T1; T2; T3; T3] mixed_world))
    = queue mixed_world ++ evs
    /\ chronological evs.
Proof.
  apply (live_events_chronological [T1; T2; T3; T3] mixed_world).
  unfold mixed_world, world_of. cbn [jobs].
  apply List.Forall_cons; [|apply List.Forall_cons; [|apply List.Forall_cons]].
  - split; [eexists; split; reflexivity|].
    right. split; [eexists; reflexivity|simpl; lia].
  - split; [eexists; split; reflexivity|]. left. reflexivity.
  - split; [eexists; split; reflexivity|].
    right. split; [eexists; reflexivity|simpl; lia].
  - apply List.Forall_nil.
Defined.

(** ** Well-formed managers *)

Lemma first_run_well_formed
  (fuel : nat) (now : datetime) (j j' : Job) (g g' : rng) :
  DT.valid now = true ->
  (unit j = Some Once -> DT.valid (offset_dt j) = true) ->
  (unit j <> Some Once -> 1 <= min_step j) ->
  _schedule_first_run (S fuel) now (j, g) = Returned tt (j', g') ->
  well_formed j'.
Proof.
  intros Hn Honce Hper. unfold _schedule_first_run.
  destruct (decide (unit j = Some Once)) as [Hu|Hu].
  { rewrite Hu. intros [= <- <-]. split; [|left; exact Hu].
    exists (offset_dt j). split; [reflexivity|auto]. }
  specialize (Hper Hu).
  assert (forall u, unit j = Some u ->
    match randint (min_step j) (max_step j) g with
    | (Err e, g1) => Raised e (j, g1)
    | (Ok step, g1) =>
        match
          rbind (bench_dt j now) (fun b =>
          rbind (offset_delta (Some u) step) (fun delta => RD.add b delta))
        with
        | Err e => Raised e (j, g1)
        | Ok t => catch_up (S fuel) now (set_next_run (Some t) j, g1)
        end
    end = Returned tt (j', g') -> well_formed j') as H.
  { intros u Hunit.
    destruct (randint (min_step j) (max_step j) g) as [[step|e] g1] eqn:Hr;
      [|discriminate].
    apply randint_range in Hr. rewrite bench_dt_eq, Hunit.
    destruct (DT.valid (bench_of (Some u) (offset_dt j) now)) eqn:Hb;
      cbn [rbind]; [|discriminate].
    destruct (offset_delta (Some u) step) as [delta|e] eqn:Hd; cbn [rbind];
      [|discriminate].
    destruct (RD.add _ delta) as [t|e] eqn:Ha; [|discriminate].
    destruct (first_run_instant_later u step (offset_dt j) now t delta)
      as [Ht Hlt]; auto; [congruence|lia|].
    cbn [catch_up next_run set_next_run]. rewrite (dt_lt_asym _ _ Hlt).
    intros [= <- <-]. split; [exists t; auto|].
    right. cbn. split; [now exists u|exact Hper]. }
  destruct (unit j) as [[]|] eqn:Hunit; try congruence;
    try (apply (H _ eq_refl)).
  destruct (randint _ _ _) as [[step|e] g1]; [|discriminate].
  destruct (bench_dt j now); discriminate.
Qed.

(** X20.  [do] keeps the manager well formed: when the jobs of the manager
    are well formed, [env.now] is valid, and the new job is a once job
    with a valid anchor or a periodic job with steps of at least 1, the
    manager that [do] returns holds well-formed jobs only. *)
Theorem do_keeps_well_formed
  (fuel : nat) (f : binding) (j j' : Job) (w w' : World) :
  Forall well_formed (jobs w) -> DT.valid (now w) = true ->
  (unit j = Some Once -> DT.valid (offset_dt j) = true) ->
  (unit j <> Some Once -> 1 <= min_step j) ->
  do (S fuel) f (j, w) = Returned tt (j', w') ->
  well_formed j' /\ Forall well_formed (jobs w').
Proof.
  intros Hwf Hn Honce Hper. unfold do.
  destruct (bool_decide _); cbn [negb]; [|discriminate].
  destruct (_schedule_first_run _ _ _) as [[] [j1 g1]|e [j1 g1]|[j1 g1]] eqn:E;
    try discriminate.
  intros [= <- <-].
  assert (well_formed j1) as Hj1.
  { eapply first_run_well_formed; [exact Hn| | |exact E]; auto. }
  split; [exact Hj1|].
  cbn [jobs subscribe add_job commit set_jobs set_rand].
  apply Forall_app. split; [now apply Forall_store|now constructor].
Qed.

Lemma do_keeps_well_formed_witness :
  let f := mkBinding "timer_call" [] [] in
  let w := world_of (mkdt 2024 1 1 9 0 0 0) [once_job 7 "Job0" T1] in
  let j' := set_next_run (Some (mkdt 2024 1 2 10 0 0 0))
              (set_event_kwargs (Some f) daily_at_ten) in
  well_formed j'
  /\ Forall well_formed (jobs (subscribe (event_name j') (add_job j' w))).
Proof.
  apply (do_keeps_well_formed 0 (mkBinding "timer_call" [] []) daily_at_ten
           _ (world_of (mkdt 2024 1 1 9 0 0 0) [once_job 7 "Job0" T1])).
  - unfold world_of. cbn [jobs].
    apply List.Forall_cons; [|apply List.Forall_nil].
    split; [eexists; split; reflexivity|]. left. reflexivity.
  - reflexivity.
  - discriminate.
  - intros _. simpl. lia.
  - vm_compute. reflexivity.
Defined.

(** X21.  The drivers keep the manager well formed: from a manager of
    well-formed jobs, the manager in which a run of the BackTrack driver or
    of the Live driver ends, however it ends, holds well-formed jobs
    only. *)
Theorem drivers_keep_well_formed (w : World) :
  Forall well_formed (jobs w) ->
  (forall fuel limit_dt,
     Forall well_formed
       (jobs (final (BackTrackScheduler.gen_events fuel limit_dt w))))
  /\ (forall clock,
        Forall well_formed (jobs (final (LiveScheduler.gen_events clock w)))).
Proof.
  intros Hwf.
  assert (Forall (fun y => well_formed y /\ due_from (mkdt 1 1 1 0 0 0 0) y)
            (jobs w)) as Hinv.
  { eapply Forall_impl; [exact Hwf|]. intros y Hy. split; [exact Hy|].
    destruct Hy as [(t & Ht & Hv) _]. exists t.
    split; [exact Ht|]. now apply valid_not_before_first. }
  split.
  - intros fuel limit_dt.
    destruct (backtrack_run_chronological fuel limit_dt w _ Hinv)
      as (_ & _ & _ & _ & H).
    eapply Forall_impl; [exact H|]. now intros y [Hy _].
  - intros clock.
    destruct (live_run_chronological clock w _ Hinv) as (_ & _ & _ & _ & H).
    eapply Forall_impl; [exact H|]. now intros y [Hy _].
Qed.

Lemma drivers_keep_well_formed_witness :
  (forall fuel limit_dt,
     Forall well_formed
       (jobs (final (BackTrackScheduler.gen_events fuel limit_dt mixed_world))))
  /\ (forall clock,
        Forall well_formed
          (jobs (final (LiveScheduler.gen_events clock mixed_world)))).
Proof.
  apply (drivers_keep_well_formed mixed_world).
  unfold mixed_world, world_of. cbn [jobs].
  apply List.Forall_cons; [|apply List.Forall_cons; [|apply List.Forall_cons]].
  - split; [eexists; split; reflexivity|].
    right. split; [eexists; reflexivity|simpl; lia].
  - split; [eexists; split; reflexivity|]. left. reflexivity.
  - split; [eexists; split; reflexivity|].
    right. split; [eexists; reflexivity|simpl; lia].
  - apply List.Forall_nil.
Defined.
